(** * Ludo rules engine (game.js): shallow embedding and verified properties

    The JavaScript program keeps one global [gameState] object and mutates it
    from three kinds of browser events: a click on the roll button
    ([onRollDice]), a click on a token ([onTokenClick]) and timer callbacks
    (the step animation of a move and the delayed pass of a turn).  The
    embedding threads the global state explicitly through every function and
    returns an [Outcome] so that a JavaScript exception keeps the state that
    was current when it was thrown. *)

From Stdlib Require Import ZArith List Bool Lia String.
From stdpp Require Import base decidable option list functions.

Import ListNotations.
Local Open Scope Z_scope.

(** ** Board constants *)

Inductive Color : Type := red | blue | green | yellow.

#[global] Instance Color_eq_dec : EqDecision Color.
Proof. solve_decision. Defined.

Definition PLAYER_COLORS : list Color := [red; blue; green; yellow].
Definition TOKEN_COUNT : nat := 4.

Definition START_INDICES (c : Color) : Z :=
  match c with red => 0 | blue => 13 | green => 26 | yellow => 39 end.

Definition HOME_ENTRY_INDICES (c : Color) : Z :=
  match c with red => 50 | blue => 11 | green => 24 | yellow => 37 end.

Definition SAFE_SPOTS : list Z := [0; 8; 13; 21; 26; 34; 39; 47].

(** Encoding of positions used by the source ([gameState.tokens] comment):
    -1 is the base, 0..51 the shared track, 100+j square j of the home lane. *)
Definition Base : Z := -1.
Definition Track (i : Z) : Z := i.
Definition Home (j : Z) : Z := 100 + j.
Definition Finished : Z := Home 5.

(** A JavaScript number that may be [undefined] ([None]). *)
Definition jsnum : Type := option Z.

(** ** Game state

    [tokens c] is the array [gameState.tokens[c]]; a token object is
    represented by its [pos] field (its [id] is never read).  The arrays are
    built once by [initTokens] with [TOKEN_COUNT] entries and no function
    changes their length, see [wf_tokens].

    Three fields stand for the browser side the handlers depend on:
    [rollBtnDisabled] is the [disabled] attribute of the roll button,
    [passTimers] the pending [setTimeout] callbacks of [onRollDice] (each
    remembers its [roll]), and [frames] the positions at which
    [animateTokenMovement] has drawn a token element, oldest first. *)
Record GameState : Type := mkGameState {
  currentPlayerIndex : Z;
  diceRoll : option Z;
  rollCount : Z;
  tokens : Color -> list Z;
  isRolling : bool;
  selectedToken : option nat;
  winner : option Color;
  rollBtnDisabled : bool;
  passTimers : list Z;
  frames : list (Color * nat * Z)
}.

Definition set_currentPlayerIndex (v : Z) (st : GameState) : GameState :=
  mkGameState v (diceRoll st) (rollCount st) (tokens st) (isRolling st)
    (selectedToken st) (winner st) (rollBtnDisabled st) (passTimers st) (frames st).
Definition set_diceRoll (v : option Z) (st : GameState) : GameState :=
  mkGameState (currentPlayerIndex st) v (rollCount st) (tokens st) (isRolling st)
    (selectedToken st) (winner st) (rollBtnDisabled st) (passTimers st) (frames st).
Definition set_rollCount (v : Z) (st : GameState) : GameState :=
  mkGameState (currentPlayerIndex st) (diceRoll st) v (tokens st) (isRolling st)
    (selectedToken st) (winner st) (rollBtnDisabled st) (passTimers st) (frames st).
Definition set_tokens (v : Color -> list Z) (st : GameState) : GameState :=
  mkGameState (currentPlayerIndex st) (diceRoll st) (rollCount st) v (isRolling st)
    (selectedToken st) (winner st) (rollBtnDisabled st) (passTimers st) (frames st).
Definition set_isRolling (v : bool) (st : GameState) : GameState :=
  mkGameState (currentPlayerIndex st) (diceRoll st) (rollCount st) (tokens st) v
    (selectedToken st) (winner st) (rollBtnDisabled st) (passTimers st) (frames st).
Definition set_selectedToken (v : option nat) (st : GameState) : GameState :=
  mkGameState (currentPlayerIndex st) (diceRoll st) (rollCount st) (tokens st)
    (isRolling st) v (winner st) (rollBtnDisabled st) (passTimers st) (frames st).
Definition set_winner (v : option Color) (st : GameState) : GameState :=
  mkGameState (currentPlayerIndex st) (diceRoll st) (rollCount st) (tokens st)
    (isRolling st) (selectedToken st) v (rollBtnDisabled st) (passTimers st) (frames st).
Definition set_rollBtnDisabled (v : bool) (st : GameState) : GameState :=
  mkGameState (currentPlayerIndex st) (diceRoll st) (rollCount st) (tokens st)
    (isRolling st) (selectedToken st) (winner st) v (passTimers st) (frames st).
Definition set_passTimers (v : list Z) (st : GameState) : GameState :=
  mkGameState (currentPlayerIndex st) (diceRoll st) (rollCount st) (tokens st)
    (isRolling st) (selectedToken st) (winner st) (rollBtnDisabled st) v (frames st).
Definition set_frames (v : list (Color * nat * Z)) (st : GameState) : GameState :=
  mkGameState (currentPlayerIndex st) (diceRoll st) (rollCount st) (tokens st)
    (isRolling st) (selectedToken st) (winner st) (rollBtnDisabled st) (passTimers st) v.

(** [gameState.tokens[color][tokenIndex].pos = p] *)
Definition set_pos (color : Color) (tokenIndex : nat) (p : Z) (st : GameState) : GameState :=
  set_tokens (<[color := <[tokenIndex := p]> (tokens st color)]> (tokens st)) st.

(** The state right after [initTokens()]: every token in its base, the roll
    button enabled. *)
Definition initialState : GameState :=
  mkGameState 0 None 0 (fun _ => replicate TOKEN_COUNT (-1)) false None None false [] [].

(** Every token array has its [TOKEN_COUNT] slots. *)
Definition wf_tokens (st : GameState) : Prop :=
  forall c, length (tokens st c) = TOKEN_COUNT.

(** ** Exceptions *)

Inductive Error : Type :=
| TypeError
| Err (msg : string).

(** Result of running a handler: it returned, or it threw; either way the
    global state it leaves behind is recorded. *)
Inductive Outcome : Type :=
| Done (st : GameState)
| Thrown (e : Error) (st : GameState).

Definition state_of (o : Outcome) : GameState :=
  match o with Done st => st | Thrown _ st => st end.

Definition bindO (o : Outcome) (k : GameState -> Outcome) : Outcome :=
  match o with Done st => k st | Thrown e st => Thrown e st end.

(** ** Helpers of the source *)

(** [gameState.players[gameState.currentPlayerIndex]]; [None] is [undefined]. *)
Definition currentColor (st : GameState) : option Color :=
  if currentPlayerIndex st <? 0 then None
  else PLAYER_COLORS !! Z.to_nat (currentPlayerIndex st).

(** JavaScript [%] truncates towards zero: [Z.rem]. *)
Definition getNextPlayerIndex (st : GameState) : Z :=
  Z.rem (currentPlayerIndex st + 1) (Z.of_nat (length PLAYER_COLORS)).

Definition isSafeSpot (pos : jsnum) : bool :=
  match pos with
  | Some p => bool_decide (p ∈ SAFE_SPOTS)
  | None => false
  end.

Definition isHomePosition (pos : jsnum) : bool :=
  match pos with
  | Some p => 100 <=? p
  | None => false
  end.

(** [tokens[i].pos === pos] for a numeric [pos] *)
Definition isOccupiedByPlayer (st : GameState) (playerColor : Color) (pos : Z) : bool :=
  existsb (fun i => bool_decide (tokens st playerColor !! i = Some pos))
          (seq 0 TOKEN_COUNT).

Definition canMoveToken (st : GameState) (playerColor : Color) (pos dice : Z) : bool :=
  if pos =? -1 then
    if (dice =? 6) && negb (isOccupiedByPlayer st playerColor (START_INDICES playerColor))
    then true else false
  else if (0 <=? pos) && (pos <? 52) then
    let startIndex := pos in
    let homeEntryIndex := HOME_ENTRY_INDICES playerColor in
    let distToHomeEntry := Z.rem (homeEntryIndex - startIndex + 52) 52 in
    if dice <=? distToHomeEntry then
      let nextPos := Z.rem (startIndex + dice) 52 in
      if isOccupiedByPlayer st playerColor nextPos then false else true
    else
      let stepsIntoHome := dice - distToHomeEntry - 1 in
      if 6 <=? stepsIntoHome then false
      else
        let homePos := 100 + stepsIntoHome in
        if isOccupiedByPlayer st playerColor homePos then false else true
  else if 100 <=? pos then
    let homeIndex := pos - 100 in
    let targetHomeIndex := homeIndex + dice in
    if 6 <=? targetHomeIndex then false
    else
      let homePos := 100 + targetHomeIndex in
      if isOccupiedByPlayer st playerColor homePos then false else true
  else false.

Definition canAnyTokenMove (st : GameState) (playerColor : Color) (diceValue : Z) : bool :=
  let toks := tokens st playerColor in
  ((diceValue =? 6)
   && existsb (fun i => bool_decide (toks !! i = Some (-1))
                        && negb (isOccupiedByPlayer st playerColor (START_INDICES playerColor)))
              (seq 0 TOKEN_COUNT))
  || existsb (fun i => match toks !! i with
                       | Some tokenPos =>
                           if tokenPos =? -1 then false
                           else canMoveToken st playerColor tokenPos diceValue
                       | None => false
                       end)
             (seq 0 TOKEN_COUNT).

(** [getTokensAtPosition(pos, exceptPlayer)]: the (player, tokenIndex) pairs
    whose [pos] is strictly equal to [pos]; nothing equals [undefined]. *)
Definition getTokensAtPosition (st : GameState) (pos : jsnum) (exceptPlayer : Color)
  : list (Color * nat) :=
  flat_map (fun playerColor =>
    if bool_decide (playerColor = exceptPlayer) then []
    else
      flat_map (fun i =>
        match pos with
        | Some p => if bool_decide (tokens st playerColor !! i = Some p)
                    then [(playerColor, i)] else []
        | None => []
        end) (seq 0 TOKEN_COUNT))
    PLAYER_COLORS.

Definition killTokensAt (pos : jsnum) (exceptPlayer : Color) (st : GameState) : GameState :=
  if isSafeSpot pos || isHomePosition pos then st
  else
    let tokensAtPos := getTokensAtPosition st pos exceptPlayer in
    fold_left (fun s tk => set_pos (fst tk) (snd tk) (-1) s) tokensAtPos st.

(** ** Moving a token *)

(** [checkWin(color)]; [color] is [undefined] when the pass timer fires with
    a player index outside [gameState.players], and [tokens.every] then
    throws. *)
Definition checkWin (color : option Color) (st : GameState) : Outcome :=
  match color with
  | None => Thrown TypeError st
  | Some c =>
      if forallb (fun p => p =? 105) (tokens st c)
      then Done (set_rollBtnDisabled true (set_winner (Some c) st))
      else Done st
  end.

Definition finalizeMove (color : option Color) (tokenIndex : option nat) (diceValue : Z)
    (callback : option (GameState -> Outcome)) (st : GameState) : Outcome :=
  let st := set_selectedToken None st in
  let st :=
    if diceValue =? 6 then
      set_rollBtnDisabled false (set_diceRoll None (set_rollCount 0 st))
    else
      set_rollBtnDisabled false
        (set_rollCount 0 (set_diceRoll None (set_currentPlayerIndex (getNextPlayerIndex st) st))) in
  let st := set_isRolling false st in
  bindO (match callback with Some cb => cb st | None => Done st end)
        (checkWin color).

(** [animateTokenMovement(color, tokenIndex, steps, callback)] with its
    timers run to completion ([animateCall] and [stepTimeout] below take them
    one at a time): while they run [isRolling] is set, and both click
    handlers return at once.  [steps] is the caller's array object:
    [steps.shift()] removes its head in place, so when [callback] finally
    runs the array it shares with the caller is empty.  [callback] therefore
    receives the content the shared array has at that moment.  Each step
    draws the token element ([frames]) and then writes the token position. *)
Fixpoint animateTokenMovement (color : Color) (tokenIndex : nat) (steps : list Z)
    (callback : list Z -> GameState -> Outcome) (st : GameState) : Outcome :=
  match steps with
  | [] => callback [] st
  | stepPos :: steps' =>
      match tokens st color !! tokenIndex with
      | None => Thrown TypeError st
      | Some _ =>
          let st := set_frames (frames st ++ [(color, tokenIndex, stepPos)]) st in
          let st := set_pos color tokenIndex stepPos st in
          animateTokenMovement color tokenIndex steps' callback st
      end
  end.

(** [for (let i = lo; i <= hi; i++) path.push(f(i))] *)
Definition pushRange (lo hi : Z) (f : Z -> Z) : list Z :=
  map (fun k => f (lo + Z.of_nat k)) (seq 0 (Z.to_nat (hi - lo + 1))).

(** [moveToken(color, tokenIndex, diceValue, callback)].  The closures handed
    to [animateTokenMovement] refer to the array [path] itself, not to a copy:
    [path[path.length - 1]] is read when the closure runs, from the content
    the array has then ([list.last] is [None], that is [undefined], on an
    empty array).  A start position that matches no branch is left alone. *)
Definition moveToken (color : Color) (tokenIndex : nat) (diceValue : Z)
    (callback : option (GameState -> Outcome)) (st : GameState) : Outcome :=
  match tokens st color !! tokenIndex with
  | None => Thrown TypeError st
  | Some startPos =>
      if startPos =? -1 then
        if negb (diceValue =? 6) then
          Thrown (Err "Cannot move token out of base without a 6") st
        else if isOccupiedByPlayer st color (START_INDICES color) then
          Thrown (Err "Start square occupied by own token") st
        else
          let path := [START_INDICES color] in
          animateTokenMovement color tokenIndex path
            (fun path s =>
               finalizeMove (Some color) (Some tokenIndex) diceValue callback
                 (killTokensAt (list.last path) color s))
            (set_isRolling true st)
      else if (0 <=? startPos) && (startPos <? 52) then
        let homeEntry := HOME_ENTRY_INDICES color in
        let distToHomeEntry := Z.rem (homeEntry - startPos + 52) 52 in
        if diceValue <=? distToHomeEntry then
          let path := pushRange 1 diceValue (fun i => Z.rem (startPos + i) 52) in
          animateTokenMovement color tokenIndex path
            (fun path s =>
               finalizeMove (Some color) (Some tokenIndex) diceValue callback
                 (killTokensAt (list.last path) color s))
            (set_isRolling true st)
        else
          let stepsOnMain := distToHomeEntry in
          let stepsIntoHome := diceValue - stepsOnMain - 1 in
          let path := pushRange 1 stepsOnMain (fun i => Z.rem (startPos + i) 52)
                      ++ pushRange 0 stepsIntoHome (fun i => 100 + i) in
          animateTokenMovement color tokenIndex path
            (fun _ s => finalizeMove (Some color) (Some tokenIndex) diceValue callback s)
            (set_isRolling true st)
      else if 100 <=? startPos then
        let homeIndex := startPos - 100 in
        let path := pushRange 1 diceValue (fun i => 100 + homeIndex + i) in
        animateTokenMovement color tokenIndex path
          (fun _ s => finalizeMove (Some color) (Some tokenIndex) diceValue callback s)
          (set_isRolling true st)
      else Done st
  end.

(** ** Event handlers *)

(** [onRollDice()], with the value [roll] drawn from [Math.random].  When no
    token can move the pass is scheduled on a timer; otherwise
    [highlightMovableTokens] only marks token elements.  Either way the roll
    button ends up disabled. *)
Definition onRollDice (roll : Z) (st : GameState) : Outcome :=
  if isRolling st || bool_decide (diceRoll st <> None) then Done st
  else
    let st := set_diceRoll (Some roll) st in
    let st := set_rollCount (rollCount st + 1) st in
    match currentColor st with
    | None => Thrown TypeError st
    | Some c =>
        let st :=
          if negb (canAnyTokenMove st c roll)
          then set_passTimers (passTimers st ++ [roll]) st
          else st in
        Done (set_rollBtnDisabled true st)
    end.

(** The timer callback scheduled by [onRollDice]:
    [finalizeMove(gameState.players[gameState.currentPlayerIndex], null, roll)]. *)
Definition passTurn (roll : Z) (st : GameState) : Outcome :=
  finalizeMove (currentColor st) None roll None st.

Definition onTokenClick (color : Color) (index : nat) (st : GameState) : Outcome :=
  if bool_decide (currentColor st <> Some color) then Done st
  else if isRolling st then Done st
  else
    match diceRoll st with
    | None => Done st
    | Some dice =>
        match tokens st color !! index with
        | None => Thrown TypeError st
        | Some pos =>
            if negb (canMoveToken st color pos dice) then Done st
            else moveToken color index dice None st
        end
    end.

(** ** The browser's event loop

    A click on the roll button reaches [onRollDice] only while the button is
    not disabled; token elements exist for the indices below [TOKEN_COUNT];
    [Math.floor(Math.random() * 6) + 1] is an integer from 1 to 6. *)
Inductive Event : Type :=
| ClickRoll (roll : Z)
| ClickToken (color : Color) (index : nat)
| PassTimeout.

Definition valid_event (e : Event) : Prop :=
  match e with
  | ClickRoll roll => 1 <= roll <= 6
  | ClickToken _ index => (index < TOKEN_COUNT)%nat
  | PassTimeout => True
  end.

Definition handle (e : Event) (st : GameState) : Outcome :=
  match e with
  | ClickRoll roll => if rollBtnDisabled st then Done st else onRollDice roll st
  | ClickToken color index => onTokenClick color index st
  | PassTimeout =>
      match passTimers st with
      | [] => Done st
      | roll :: rest => passTurn roll (set_passTimers rest st)
      end
  end.

Definition run (es : list Event) (st : GameState) : GameState :=
  fold_left (fun s e => state_of (handle e s)) es st.

(** ** The step timers of an animation

    [animateTokenMovement] does not finish within the click that starts it:
    each call draws the token on the next step and leaves a 160 ms timer
    behind; the timer writes the token position and makes the next call, and
    the call that finds the array empty runs the callback.  Between two
    timers the global state is visible to every other handler.  [Browser]
    is that state together with the step timers that are pending, oldest
    first; each timer remembers the arguments of the call that set it, the
    array being the one its caller shares, already shifted. *)
Record StepTimer : Type := mkStepTimer {
  timerColor : Color;
  timerIndex : nat;
  timerStepPos : Z;
  timerSteps : list Z;
  timerCallback : list Z -> GameState -> Outcome
}.

Record Browser : Type := mkBrowser {
  game : GameState;
  stepTimers : list StepTimer
}.

(** One call of [animateTokenMovement(color, tokenIndex, steps, callback)]:
    the callback at once on an empty array, otherwise one frame and one
    timer.  An exception ends the call and leaves the state as it is. *)
Definition animateCall (color : Color) (tokenIndex : nat) (steps : list Z)
    (callback : list Z -> GameState -> Outcome) (b : Browser) : Browser :=
  match steps with
  | [] => mkBrowser (state_of (callback [] (game b))) (stepTimers b)
  | stepPos :: steps' =>
      match tokens (game b) color !! tokenIndex with
      | None => b
      | Some _ =>
          mkBrowser
            (set_frames (frames (game b) ++ [(color, tokenIndex, stepPos)]) (game b))
            (stepTimers b ++ [mkStepTimer color tokenIndex stepPos steps' callback])
      end
  end.

(** The body of the timer: the position is written, then
    [animateTokenMovement] is called again on what is left of the array. *)
Definition stepTimeout (t : StepTimer) (b : Browser) : Browser :=
  match tokens (game b) (timerColor t) !! timerIndex t with
  | None => b
  | Some _ =>
      animateCall (timerColor t) (timerIndex t) (timerSteps t) (timerCallback t)
        (mkBrowser (set_pos (timerColor t) (timerIndex t) (timerStepPos t) (game b))
                   (stepTimers b))
  end.

(** [moveToken] up to the point where its first timer is pending. *)
Definition moveTokenAsync (color : Color) (tokenIndex : nat) (diceValue : Z)
    (callback : option (GameState -> Outcome)) (b : Browser) : Browser :=
  let st := game b in
  match tokens st color !! tokenIndex with
  | None => b
  | Some startPos =>
      if startPos =? -1 then
        if negb (diceValue =? 6) then b
        else if isOccupiedByPlayer st color (START_INDICES color) then b
        else
          let path := [START_INDICES color] in
          animateCall color tokenIndex path
            (fun path s =>
               finalizeMove (Some color) (Some tokenIndex) diceValue callback
                 (killTokensAt (list.last path) color s))
            (mkBrowser (set_isRolling true st) (stepTimers b))
      else if (0 <=? startPos) && (startPos <? 52) then
        let homeEntry := HOME_ENTRY_INDICES color in
        let distToHomeEntry := Z.rem (homeEntry - startPos + 52) 52 in
        if diceValue <=? distToHomeEntry then
          let path := pushRange 1 diceValue (fun i => Z.rem (startPos + i) 52) in
          animateCall color tokenIndex path
            (fun path s =>
               finalizeMove (Some color) (Some tokenIndex) diceValue callback
                 (killTokensAt (list.last path) color s))
            (mkBrowser (set_isRolling true st) (stepTimers b))
        else
          let stepsOnMain := distToHomeEntry in
          let stepsIntoHome := diceValue - stepsOnMain - 1 in
          let path := pushRange 1 stepsOnMain (fun i => Z.rem (startPos + i) 52)
                      ++ pushRange 0 stepsIntoHome (fun i => 100 + i) in
          animateCall color tokenIndex path
            (fun _ s => finalizeMove (Some color) (Some tokenIndex) diceValue callback s)
            (mkBrowser (set_isRolling true st) (stepTimers b))
      else if 100 <=? startPos then
        let homeIndex := startPos - 100 in
        let path := pushRange 1 diceValue (fun i => 100 + homeIndex + i) in
        animateCall color tokenIndex path
          (fun _ s => finalizeMove (Some color) (Some tokenIndex) diceValue callback s)
          (mkBrowser (set_isRolling true st) (stepTimers b))
      else b
  end.

Definition onTokenClickAsync (color : Color) (index : nat) (b : Browser) : Browser :=
  let st := game b in
  if bool_decide (currentColor st <> Some color) then b
  else if isRolling st then b
  else
    match diceRoll st with
    | None => b
    | Some dice =>
        match tokens st color !! index with
        | None => b
        | Some pos =>
            if negb (canMoveToken st color pos dice) then b
            else moveTokenAsync color index dice None b
        end
    end.

(** What the browser can run next: one of the handlers, or the oldest step
    timer. *)
Inductive BrowserEvent : Type :=
| Handler (e : Event)
| StepTimeout.

Definition valid_browser_event (e : BrowserEvent) : Prop :=
  match e with
  | Handler e => valid_event e
  | StepTimeout => True
  end.

Definition browserStep (e : BrowserEvent) (b : Browser) : Browser :=
  match e with
  | Handler (ClickToken color index) => onTokenClickAsync color index b
  | Handler e => mkBrowser (state_of (handle e (game b))) (stepTimers b)
  | StepTimeout =>
      match stepTimers b with
      | [] => b
      | t :: rest => stepTimeout t (mkBrowser (game b) rest)
      end
  end.

Definition browserRun (es : list BrowserEvent) (b : Browser) : Browser :=
  fold_left (fun b e => browserStep e b) es b.

Inductive browserReachable : Browser -> Prop :=
| browserReachable_init : browserReachable (mkBrowser initialState [])
| browserReachable_step b e :
    browserReachable b -> valid_browser_event e -> browserReachable (browserStep e b).

(** The states the global [gameState] goes through in play, those between
    two step timers of a move included. *)
Definition reachable (st : GameState) : Prop :=
  exists b, browserReachable b /\ game b = st.

(** The reachable states in which no step timer is pending. *)
Definition idleReachable (st : GameState) : Prop :=
  exists b, browserReachable b /\ game b = st /\ stepTimers b = [].

(** Position of a token, [None] when the slot does not exist. *)
Definition posOf (st : GameState) (c : Color) (i : nat) : option Z :=
  tokens st c !! i.

(** * Definitions used in the statements *)

(** [animateSteps] is the state the step timers leave behind, one frame and
    one position write per entry of [steps]. *)
Definition animateStep (color : Color) (tokenIndex : nat) (s : GameState) (stepPos : Z)
  : GameState :=
  set_pos color tokenIndex stepPos
    (set_frames (frames s ++ [(color, tokenIndex, stepPos)]) s).

Definition animateSteps (color : Color) (tokenIndex : nat) (steps : list Z)
    (st : GameState) : GameState :=
  fold_left (animateStep color tokenIndex) steps st.

(** The state [finalizeMove] reaches before [checkWin]. *)
Definition finalizeState (diceValue : Z) (st : GameState) : GameState :=
  let st := set_selectedToken None st in
  let st :=
    if diceValue =? 6 then
      set_rollBtnDisabled false (set_diceRoll None (set_rollCount 0 st))
    else
      set_rollBtnDisabled false
        (set_rollCount 0 (set_diceRoll None (set_currentPlayerIndex (getNextPlayerIndex st) st))) in
  set_isRolling false st.

Definition checkWinState (c : Color) (st : GameState) : GameState :=
  if forallb (fun p => p =? 105) (tokens st c)
  then set_rollBtnDisabled true (set_winner (Some c) st)
  else st.

(** [movePath] is the array [path] that [moveToken] builds in each branch. *)
Definition movePath (color : Color) (startPos diceValue : Z) : list Z :=
  if startPos =? -1 then [START_INDICES color]
  else if (0 <=? startPos) && (startPos <? 52) then
    let distToHomeEntry := Z.rem (HOME_ENTRY_INDICES color - startPos + 52) 52 in
    if diceValue <=? distToHomeEntry then
      pushRange 1 diceValue (fun i => Z.rem (startPos + i) 52)
    else
      pushRange 1 distToHomeEntry (fun i => Z.rem (startPos + i) 52)
      ++ pushRange 0 (diceValue - distToHomeEntry - 1) (fun i => 100 + i)
  else if 100 <=? startPos then
    pushRange 1 diceValue (fun i => 100 + (startPos - 100) + i)
  else [].

(** The start positions from which [moveToken] takes one of its branches. *)
Definition onBoard (startPos : Z) : bool :=
  (startPos =? -1) || ((0 <=? startPos) && (startPos <? 52)) || (100 <=? startPos).

Definition moved (color : Color) (tokenIndex : nat) (startPos diceValue : Z)
    (st : GameState) : GameState :=
  checkWinState color
    (finalizeState diceValue
       (animateSteps color tokenIndex (movePath color startPos diceValue)
          (set_isRolling true st))).

(** Where the moved token ends: on the last square of the path. *)
Definition destination (color : Color) (startPos diceValue : Z) : Z :=
  match list.last (movePath color startPos diceValue) with
  | Some p => p
  | None => startPos
  end.

(** Square [p] holds a token of colour [c]. *)
Definition holdsTokenOf (st : GameState) (c : Color) (p : Z) : Prop :=
  exists k, (k < TOKEN_COUNT)%nat /\ posOf st c k = Some p.

(** A state with the given turn, pending roll and token arrays, nothing in
    flight and nobody declared winner. *)
Definition board (cur : Z) (dice : option Z) (r b g y : list Z) : GameState :=
  mkGameState cur dice 0
    (fun c => match c with red => r | blue => b | green => g | yellow => y end)
    false None None false [] [].

Definition inBase : list Z := [Base; Base; Base; Base].

(** How the turn stands in [st'] after a move or a pass with [dice] from [st]. *)
Definition turnAfter (dice : Z) (st st' : GameState) : Prop :=
  diceRoll st' = None /\ isRolling st' = false
  /\ (dice = 6 -> currentPlayerIndex st' = currentPlayerIndex st)
  /\ (dice <> 6 -> currentPlayerIndex st' = (currentPlayerIndex st + 1) mod 4).

(** The positions of the encoding: base, a track index, or one of the six
    squares of a home lane. *)
Definition validPos (p : Z) : Prop :=
  p = Base \/ 0 <= p < 52 \/ 100 <= p <= 105.

Definition allValid (st : GameState) : Prop :=
  forall c k p, posOf st c k = Some p -> validPos p.

(** Yellow to move with a 1 pending, three tokens finished, the last one on
    [Home(4)]. *)
Definition lastStepBoard : GameState :=
  board 3 (Some 1) inBase inBase inBase [Finished; Finished; Finished; Home 4].

(** Blue to move with a 4 pending: a blue token on [Track(49)], a red token
    on the non-safe square [Track(1)] where the blue token will land. *)
Definition captureBoard : GameState :=
  board 1 (Some 4) [Track 1; Base; Base; Base] [Track 49; Base; Base; Base] inBase inBase.

(** Red leaves its base and steps to [Track(1)]; blue then leaves its base,
    plays six 6s and a 4, and lands on [Track(1)] too. *)
Definition sharedSquareGame : list Event :=
  [ClickRoll 6; ClickToken red 0; ClickRoll 1; ClickToken red 0;
   ClickRoll 6; ClickToken blue 0;
   ClickRoll 6; ClickToken blue 0; ClickRoll 6; ClickToken blue 0;
   ClickRoll 6; ClickToken blue 0; ClickRoll 6; ClickToken blue 0;
   ClickRoll 6; ClickToken blue 0; ClickRoll 6; ClickToken blue 0;
   ClickRoll 4; ClickToken blue 0].

(** A game in which red brings its first token to [Home(5)] and its second
    to [Home(4)], the other colours passing in between, and then rolls a 1. *)
Definition sixes (c : Color) (i : nat) (n : nat) : list Event :=
  concat (replicate n [ClickRoll 6; ClickToken c i]).

Definition othersPass : list Event :=
  concat (replicate 3 [ClickRoll 1; PassTimeout]).

Definition secondFinisherGame : list Event :=
  sixes red 0 10 ++ [ClickRoll 2; ClickToken red 0] ++ othersPass
  ++ sixes red 1 10 ++ [ClickRoll 1; ClickToken red 1] ++ othersPass
  ++ [ClickRoll 1].

(** Red to move with a 2 pending; the square two steps ahead of its token on
    [Track(3)] holds another red token. *)
Definition blockedBoard : GameState :=
  board 0 (Some 2) [Track 3; Track 5; Base; Base] inBase inBase inBase.

(** The state [moveToken] leaves when it is called on [lastStepBoard]: every
    yellow token finished, yellow declared winner, the roll button disabled
    and no roll pending. *)
Definition wonBoard : GameState :=
  state_of (moveToken yellow 3 1 None lastStepBoard).

(** The clicks of the user, as opposed to timer callbacks. *)
Definition isClick (e : Event) : Prop :=
  match e with PassTimeout => False | _ => True end.

(** [canMoveToken] refuses a move onto a square that holds a token of the
    same colour, the last home square included.  Played through the event
    handlers, a colour therefore never has two tokens on [Home(5)], and
    [checkWin] never finds four. *)
Definition soleFinisher (st : GameState) : Prop :=
  forall c i j, posOf st c i = Some Finished -> posOf st c j = Some Finished -> i = j.

Definition playInv (st : GameState) : Prop :=
  wf_tokens st /\ soleFinisher st /\ winner st = None.

(** ** A token's route *)

(** Number of steps a token of colour [c] standing on [p] has made since its
    start square: along the track for a track index, 51 and more in the home
    lane. *)
Definition progress (c : Color) (p : Z) : Z :=
  if p <? 52 then (p - START_INDICES c) mod 52 else 51 + (p - 100).

(** No token stands on the track square just past its own home entry. *)
Definition onRoute (st : GameState) : Prop :=
  forall c k p, posOf st c k = Some p -> 0 <= p < 52 -> progress c p <= 50.

(** ** States met in play *)

(** The roll counter, the roll button and the pass timer agree with the
    pending roll: no roll pending means counter 0, button enabled and no
    timer; a pending roll [d] means counter 1, button disabled, and a pass
    timer for [d] exactly when the current colour has no movable token. *)
Definition turnCoherent (st : GameState) : Prop :=
  match diceRoll st with
  | None => rollCount st = 0 /\ rollBtnDisabled st = false /\ passTimers st = []
  | Some d =>
      1 <= d <= 6 /\ rollCount st = 1 /\ rollBtnDisabled st = true
      /\ exists c, currentColor st = Some c
                   /\ passTimers st = if canAnyTokenMove st c d then [] else [d]
  end.

Definition gameInv (st : GameState) : Prop :=
  playInv st /\ allValid st /\ onRoute st
  /\ 0 <= currentPlayerIndex st < 4 /\ isRolling st = false /\ turnCoherent st.

(** Outside the base no square holds two tokens of one colour. *)
Definition noStack (st : GameState) : Prop :=
  forall c i j p, p <> Base -> posOf st c i = Some p -> posOf st c j = Some p -> i = j.

(** ** States between two step timers *)

(** The state [st0] becomes when a move of token [tokenIndex] of [color] has
    been started in it, the token has been put on the squares [done] one
    after the other and has just been drawn on [stepPos], the timer that
    will put it there still pending. *)
Definition inFlight (st0 : GameState) (color : Color) (tokenIndex : nat)
    (done : list Z) (stepPos : Z) : GameState :=
  let s := animateSteps color tokenIndex done (set_isRolling true st0) in
  set_frames (frames s ++ [(color, tokenIndex, stepPos)]) s.

(** What holds of the browser in play: either no step timer is pending and
    the state is one between two moves, or exactly one is, and the state is
    that of a legal move of the current player under way. *)
Definition browserInv (b : Browser) : Prop :=
  match stepTimers b with
  | [] => gameInv (game b) /\ noStack (game b)
  | [t] =>
      exists st0 pos dice done,
        gameInv st0 /\ noStack st0
        /\ currentColor st0 = Some (timerColor t) /\ diceRoll st0 = Some dice
        /\ posOf st0 (timerColor t) (timerIndex t) = Some pos
        /\ canMoveToken st0 (timerColor t) pos dice = true
        /\ movePath (timerColor t) pos dice = done ++ timerStepPos t :: timerSteps t
        /\ game b = inFlight st0 (timerColor t) (timerIndex t) done (timerStepPos t)
        /\ (forall s, timerCallback t [] s
                      = Done (checkWinState (timerColor t) (finalizeState dice s)))
  | _ => False
  end.

(** ** Screen coordinates *)

Definition BOARD_SIZE : Z := 600.
Definition TOKEN_SIZE : Z := 30.
Definition GRID_UNIT : Z := 40.
Definition OFFSET : Z := 20.

(** A pixel position [{x, y}]. *)
Record Coord : Type := mkCoord { x : Z; y : Z }.

(** A value returned, or an exception thrown, by a function that does not
    touch the game state. *)
Inductive Result (A : Type) : Type :=
| Ok (a : A)
| Raise (e : Error).
Arguments Ok {A} a.
Arguments Raise {A} e.

(** Column and row, on the 15 by 15 grid, of the 52 track squares. *)
Definition PATH_COORDS_GRID : list (Z * Z) :=
  [(1,6); (2,6); (3,6); (4,6); (5,6); (6,6); (7,5); (7,4); (7,3); (7,2); (7,1); (7,0); (8,0);
   (9,0); (9,1); (9,2); (9,3); (9,4); (9,5); (10,6); (11,6); (12,6); (13,6); (14,6); (14,7);
   (14,8); (13,8); (12,8); (11,8); (10,8); (9,8); (9,9); (9,10); (9,11); (9,12); (9,13);
   (9,14); (8,14); (7,14); (6,13); (6,12); (6,11); (6,10); (6,9); (5,8); (4,8); (3,8); (2,8);
   (1,8); (0,8); (0,7); (0,6)].

Definition cellCentre (cell : Z * Z) : Coord :=
  mkCoord (fst cell * GRID_UNIT + OFFSET) (snd cell * GRID_UNIT + OFFSET).

Definition PATH_COORDS : list Coord := map cellCentre PATH_COORDS_GRID.

Definition HOME_PATH_COORDS (c : Color) : list Coord :=
  match c with
  | red => map (fun r => cellCentre (7, r)) [7; 8; 9; 10; 11; 12]
  | yellow => map (fun r => cellCentre (6, r)) [7; 8; 9; 10; 11; 12]
  | blue => map (fun col => cellCentre (col, 7)) [8; 9; 10; 11; 12; 13]
  | green => map (fun col => cellCentre (col, 7)) [1; 2; 3; 4; 5; 6]
  end.

Definition basePositions (c : Color) : list (Z * Z) :=
  match c with
  | red => [(1, 11); (2, 11); (1, 12); (2, 12)]
  | blue => [(1, 1); (2, 1); (1, 2); (2, 2)]
  | green => [(11, 1); (12, 1); (11, 2); (12, 2)]
  | yellow => [(11, 11); (12, 11); (11, 12); (12, 12)]
  end.

(** [getBaseCoords(color, tokenIndex)]; destructuring a missing entry
    throws. *)
Definition getBaseCoords (color : Color) (tokenIndex : nat) : Result Coord :=
  match basePositions color !! tokenIndex with
  | Some cell => Ok (cellCentre cell)
  | None => Raise TypeError
  end.

(** [getTokenScreenCoords(color, tokenIndex, pos)]: the top left corner of
    the token element; [TOKEN_SIZE/2] is 15.  Reading [.x] of a missing table
    entry throws; an unknown position is drawn at the origin. *)
Definition getTokenScreenCoords (color : Color) (tokenIndex : nat) (pos : Z) : Result Coord :=
  if pos =? -1 then
    match getBaseCoords color tokenIndex with
    | Ok c => Ok (mkCoord (x c - TOKEN_SIZE / 2) (y c - TOKEN_SIZE / 2))
    | Raise e => Raise e
    end
  else if (0 <=? pos) && (pos <? 52) then
    match PATH_COORDS !! Z.to_nat pos with
    | Some p => Ok (mkCoord (x p - TOKEN_SIZE / 2) (y p - TOKEN_SIZE / 2))
    | None => Raise TypeError
    end
  else if (100 <=? pos) && (pos <? 106) then
    let homeIndex := pos - 100 in
    match HOME_PATH_COORDS color !! Z.to_nat homeIndex with
    | Some p => Ok (mkCoord (x p - TOKEN_SIZE / 2) (y p - TOKEN_SIZE / 2))
    | None => Raise TypeError
    end
  else Ok (mkCoord 0 0).

(** [getTokenCoords(color, pos)]: the centre of the square; [None] is the
    [null] returned for a token in its base. *)
Definition getTokenCoords (color : Color) (pos : Z) : Result (option Coord) :=
  if pos =? -1 then Ok None
  else if (0 <=? pos) && (pos <? 52) then
    match PATH_COORDS !! Z.to_nat pos with
    | Some p => Ok (Some p)
    | None => Raise TypeError
    end
  else if (100 <=? pos) && (pos <? 106) then
    let homeIndex := pos - 100 in
    match HOME_PATH_COORDS color !! Z.to_nat homeIndex with
    | Some p => Ok (Some p)
    | None => Raise TypeError
    end
  else Ok (Some (mkCoord 0 0)).

#[global] Instance Coord_eq_dec : EqDecision Coord.
Proof. solve_decision. Defined.

(** The token element, [TOKEN_SIZE] wide and high with its corner on [c],
    lies within the board image. *)
Definition insideBoard (c : Coord) : Prop :=
  0 <= x c /\ x c + TOKEN_SIZE <= BOARD_SIZE /\ 0 <= y c /\ y c + TOKEN_SIZE <= BOARD_SIZE.

(** Squares [a] and [b] are different and at most one grid cell apart in each
    direction. *)
Definition neighbours (a b : Coord) : bool :=
  negb (bool_decide (a = b))
  && (Z.abs (x a - x b) <=? GRID_UNIT) && (Z.abs (y a - y b) <=? GRID_UNIT).

Definition nextOnTrack (i : Z) : bool :=
  match PATH_COORDS !! Z.to_nat i, PATH_COORDS !! Z.to_nat ((i + 1) mod 52) with
  | Some a, Some b => neighbours a b
  | _, _ => false
  end.

(** * Lemmas *)

(** ** The loops that build a path *)

Lemma pushRange_empty lo hi f : hi < lo -> pushRange lo hi f = [].
Proof.
  intros H. unfold pushRange.
  replace (Z.to_nat (hi - lo + 1)) with 0%nat by lia. reflexivity.
Qed.

Lemma pushRange_snoc lo hi f :
  lo <= hi -> pushRange lo hi f = pushRange lo (hi - 1) f ++ [f hi].
Proof.
  intros H. unfold pushRange.
  replace (Z.to_nat (hi - lo + 1)) with (S (Z.to_nat (hi - 1 - lo + 1))) by lia.
  rewrite seq_S, map_app. simpl. do 3 f_equal. lia.
Qed.

Lemma pushRange_last lo hi f :
  lo <= hi -> list.last (pushRange lo hi f) = Some (f hi).
Proof. intros H. rewrite pushRange_snoc by assumption. apply last_snoc. Qed.

(** ** Writing one token position *)

Lemma set_pos_tokens_same color idx p st :
  tokens (set_pos color idx p st) color = <[idx := p]> (tokens st color).
Proof. unfold set_pos. simpl. apply fn_lookup_insert. Qed.

Lemma set_pos_tokens_other color idx p st c :
  c <> color -> tokens (set_pos color idx p st) c = tokens st c.
Proof. intros H. unfold set_pos. simpl. apply fn_lookup_insert_ne. congruence. Qed.

(** ** The animation loop *)

Lemma animateStep_slot color idx s p :
  is_Some (tokens s color !! idx) ->
  is_Some (tokens (animateStep color idx s p) color !! idx).
Proof.
  intros H. unfold animateStep. rewrite set_pos_tokens_same. simpl.
  apply lookup_lt_is_Some. rewrite length_insert. apply lookup_lt_is_Some, H.
Qed.

(** Whatever the path, the callback runs on an emptied array. *)
Lemma animateTokenMovement_steps color idx steps cb st :
  is_Some (tokens st color !! idx) ->
  animateTokenMovement color idx steps cb st = cb [] (animateSteps color idx steps st).
Proof.
  revert st. induction steps as [|p steps IH]; intros st H; simpl.
  - reflexivity.
  - destruct H as [q Hq]. rewrite Hq.
    apply IH. apply (animateStep_slot color idx st p). rewrite Hq. eauto.
Qed.

Lemma animateSteps_snoc color idx steps p st :
  animateSteps color idx (steps ++ [p]) st
  = animateStep color idx (animateSteps color idx steps st) p.
Proof. unfold animateSteps. apply fold_left_app. Qed.

Lemma animateSteps_tokens_other color idx steps st c :
  c <> color -> tokens (animateSteps color idx steps st) c = tokens st c.
Proof.
  intros H. induction steps as [|p steps IH] using rev_ind; [reflexivity|].
  rewrite animateSteps_snoc. unfold animateStep.
  rewrite set_pos_tokens_other by assumption. exact IH.
Qed.

Lemma animateSteps_tokens_same color idx steps st :
  tokens (animateSteps color idx steps st) color
  = match list.last steps with
    | Some p => <[idx := p]> (tokens st color)
    | None => tokens st color
    end.
Proof.
  induction steps as [|p steps IH] using rev_ind; [reflexivity|].
  rewrite animateSteps_snoc, last_snoc. unfold animateStep.
  rewrite set_pos_tokens_same. simpl. rewrite IH.
  destruct (list.last steps); [apply list_insert_insert_eq | reflexivity].
Qed.

Lemma animateSteps_frames color idx steps st :
  frames (animateSteps color idx steps st)
  = frames st ++ map (fun p => (color, idx, p)) steps.
Proof.
  induction steps as [|p steps IH] using rev_ind.
  - simpl. symmetry. apply app_nil_r.
  - rewrite animateSteps_snoc. unfold animateStep. simpl.
    rewrite IH, map_app, app_assoc. reflexivity.
Qed.

Lemma animateSteps_fields color idx steps st :
  let s := animateSteps color idx steps st in
  currentPlayerIndex s = currentPlayerIndex st /\ diceRoll s = diceRoll st
  /\ rollCount s = rollCount st /\ isRolling s = isRolling st
  /\ winner s = winner st /\ rollBtnDisabled s = rollBtnDisabled st
  /\ passTimers s = passTimers st.
Proof.
  induction steps as [|p steps IH] using rev_ind; simpl.
  - repeat split.
  - rewrite animateSteps_snoc. unfold animateStep. simpl. exact IH.
Qed.

(** ** Captures and the end of a move *)

(** Called on [undefined], [killTokensAt] finds no token and changes nothing. *)
Lemma killTokensAt_undefined color st : killTokensAt None color st = st.
Proof. destruct color; reflexivity. Qed.

(** No capture on a safe square or on a home-lane position. *)
Lemma killTokensAt_safe_or_home pos color st :
  isSafeSpot pos = true \/ isHomePosition pos = true -> killTokensAt pos color st = st.
Proof. intros [H|H]; unfold killTokensAt; rewrite H, ?orb_true_r; reflexivity. Qed.

Lemma checkWin_Some c st : checkWin (Some c) st = Done (checkWinState c st).
Proof. unfold checkWin, checkWinState. destruct (forallb _ _); reflexivity. Qed.

Lemma finalizeMove_no_callback color ti diceValue st :
  finalizeMove color ti diceValue None st = checkWin color (finalizeState diceValue st).
Proof. reflexivity. Qed.

Lemma finalizeState_tokens diceValue st : tokens (finalizeState diceValue st) = tokens st.
Proof. unfold finalizeState. destruct (diceValue =? 6); reflexivity. Qed.

Lemma finalizeState_frames diceValue st : frames (finalizeState diceValue st) = frames st.
Proof. unfold finalizeState. destruct (diceValue =? 6); reflexivity. Qed.

Lemma finalizeState_diceRoll diceValue st : diceRoll (finalizeState diceValue st) = None.
Proof. unfold finalizeState. destruct (diceValue =? 6); reflexivity. Qed.

Lemma finalizeState_isRolling diceValue st : isRolling (finalizeState diceValue st) = false.
Proof. unfold finalizeState. destruct (diceValue =? 6); reflexivity. Qed.

Lemma finalizeState_player diceValue st :
  currentPlayerIndex (finalizeState diceValue st)
  = if diceValue =? 6 then currentPlayerIndex st else getNextPlayerIndex st.
Proof. unfold finalizeState. destruct (diceValue =? 6); reflexivity. Qed.

Lemma checkWinState_tokens c st : tokens (checkWinState c st) = tokens st.
Proof. unfold checkWinState. destruct (forallb _ _); reflexivity. Qed.

Lemma checkWinState_frames c st : frames (checkWinState c st) = frames st.
Proof. unfold checkWinState. destruct (forallb _ _); reflexivity. Qed.

Lemma checkWinState_turn c st :
  currentPlayerIndex (checkWinState c st) = currentPlayerIndex st
  /\ diceRoll (checkWinState c st) = diceRoll st
  /\ isRolling (checkWinState c st) = isRolling st.
Proof. unfold checkWinState. destruct (forallb _ _); repeat split. Qed.

Lemma getNextPlayerIndex_mod st :
  0 <= currentPlayerIndex st -> getNextPlayerIndex st = (currentPlayerIndex st + 1) mod 4.
Proof. intros H. unfold getNextPlayerIndex. simpl. apply Z.rem_mod_nonneg; lia. Qed.

(** ** What [moveToken] does *)

Lemma moveToken_cases color idx diceValue st :
  moveToken color idx diceValue None st =
  match tokens st color !! idx with
  | None => Thrown TypeError st
  | Some startPos =>
      if startPos =? -1 then
        if negb (diceValue =? 6) then
          Thrown (Err "Cannot move token out of base without a 6") st
        else if isOccupiedByPlayer st color (START_INDICES color) then
          Thrown (Err "Start square occupied by own token") st
        else Done (moved color idx startPos diceValue st)
      else if onBoard startPos then Done (moved color idx startPos diceValue st)
      else Done st
  end.
Proof.
  unfold moveToken, moved, movePath, onBoard.
  destruct (tokens st color !! idx) as [startPos|] eqn:Hs; [|reflexivity].
  assert (Hslot : is_Some (tokens (set_isRolling true st) color !! idx))
    by (simpl; rewrite Hs; eauto).
  destruct (startPos =? -1) eqn:Hb.
  - destruct (negb (diceValue =? 6)); [reflexivity|].
    destruct (isOccupiedByPlayer _ _ _); [reflexivity|].
    rewrite animateTokenMovement_steps by exact Hslot.
    simpl list.last. rewrite killTokensAt_undefined, finalizeMove_no_callback.
    apply checkWin_Some.
  - simpl orb. destruct ((0 <=? startPos) && (startPos <? 52)) eqn:Ht.
    + simpl. destruct (diceValue <=? _) eqn:Hd;
        rewrite animateTokenMovement_steps by exact Hslot;
        simpl list.last; rewrite ?killTokensAt_undefined, finalizeMove_no_callback;
        apply checkWin_Some.
    + simpl. destruct (100 <=? startPos) eqn:Hh; [|reflexivity].
      rewrite animateTokenMovement_steps by exact Hslot.
      rewrite finalizeMove_no_callback. apply checkWin_Some.
Qed.

(** A legal move is carried out. *)
Lemma moveToken_legal color idx startPos diceValue st :
  tokens st color !! idx = Some startPos ->
  canMoveToken st color startPos diceValue = true ->
  moveToken color idx diceValue None st = Done (moved color idx startPos diceValue st).
Proof.
  intros Hs Hc. rewrite moveToken_cases, Hs. unfold canMoveToken, onBoard in *.
  destruct (startPos =? -1).
  - destruct (diceValue =? 6); [|discriminate]. simpl in *.
    destruct (isOccupiedByPlayer _ _ _); [discriminate|reflexivity].
  - simpl. destruct ((0 <=? startPos) && (startPos <? 52)); [reflexivity|].
    simpl. destruct (100 <=? startPos); [reflexivity|discriminate].
Qed.

Lemma moved_tokens_same color idx startPos diceValue st :
  tokens st color !! idx = Some startPos ->
  tokens (moved color idx startPos diceValue st) color
  = <[idx := destination color startPos diceValue]> (tokens st color).
Proof.
  intros Hs. unfold moved, destination.
  rewrite checkWinState_tokens, finalizeState_tokens, animateSteps_tokens_same. simpl.
  destruct (list.last _); [reflexivity|].
  symmetry. apply list_insert_id. exact Hs.
Qed.

Lemma moved_tokens_other color idx startPos diceValue st c :
  c <> color -> tokens (moved color idx startPos diceValue st) c = tokens st c.
Proof.
  intros H. unfold moved.
  rewrite checkWinState_tokens, finalizeState_tokens, animateSteps_tokens_other by assumption.
  reflexivity.
Qed.

Lemma moved_posOf_same color idx startPos diceValue st :
  tokens st color !! idx = Some startPos ->
  posOf (moved color idx startPos diceValue st) color idx
  = Some (destination color startPos diceValue).
Proof.
  intros Hs. unfold posOf. rewrite moved_tokens_same by exact Hs.
  apply list_lookup_insert_eq. apply lookup_lt_is_Some. rewrite Hs. eauto.
Qed.

(** No other token is touched: not the mover's other tokens, and not an
    opponent's either, wherever it stands. *)
Lemma moved_posOf_other color idx startPos diceValue st c i :
  tokens st color !! idx = Some startPos ->
  (c, i) <> (color, idx) ->
  posOf (moved color idx startPos diceValue st) c i = posOf st c i.
Proof.
  intros Hs Hne. unfold posOf. destruct (decide (c = color)) as [->|Hc].
  - rewrite moved_tokens_same by exact Hs.
    apply list_lookup_insert_ne. congruence.
  - rewrite moved_tokens_other by assumption. reflexivity.
Qed.

Lemma moved_frames color idx startPos diceValue st :
  frames (moved color idx startPos diceValue st)
  = frames st ++ map (fun p => (color, idx, p)) (movePath color startPos diceValue).
Proof.
  unfold moved. rewrite checkWinState_frames, finalizeState_frames, animateSteps_frames.
  reflexivity.
Qed.

Lemma moved_turn color idx startPos diceValue st :
  currentPlayerIndex (moved color idx startPos diceValue st)
  = (if diceValue =? 6 then currentPlayerIndex st else getNextPlayerIndex st)
  /\ diceRoll (moved color idx startPos diceValue st) = None
  /\ isRolling (moved color idx startPos diceValue st) = false.
Proof.
  unfold moved.
  destruct (checkWinState_turn color
    (finalizeState diceValue (animateSteps color idx (movePath color startPos diceValue)
       (set_isRolling true st)))) as (-> & -> & ->).
  rewrite finalizeState_player, finalizeState_diceRoll, finalizeState_isRolling.
  destruct (animateSteps_fields color idx (movePath color startPos diceValue)
              (set_isRolling true st)) as (Hp & _).
  unfold getNextPlayerIndex. rewrite Hp. simpl. repeat split.
Qed.

(** ** Occupancy *)

Lemma isOccupiedByPlayer_spec st c p :
  isOccupiedByPlayer st c p = true <-> holdsTokenOf st c p.
Proof.
  unfold isOccupiedByPlayer, holdsTokenOf, posOf. rewrite existsb_exists. split.
  - intros [k [Hk Hb]]. apply in_seq in Hk. apply bool_decide_eq_true in Hb.
    exists k. split; [lia | exact Hb].
  - intros [k [Hk Hp]]. exists k. split; [apply in_seq; lia |].
    apply bool_decide_eq_true. exact Hp.
Qed.

Lemma isOccupiedByPlayer_free st c p :
  isOccupiedByPlayer st c p = false <-> ~ holdsTokenOf st c p.
Proof.
  rewrite <- isOccupiedByPlayer_spec.
  destruct (isOccupiedByPlayer st c p); split; congruence.
Qed.

(** ** Destinations *)

Lemma pushRange_last_cases lo hi f :
  list.last (pushRange lo hi f) = if lo <=? hi then Some (f hi) else None.
Proof.
  destruct (Z.leb_spec lo hi) as [H|H].
  - apply pushRange_last. exact H.
  - rewrite pushRange_empty by lia. reflexivity.
Qed.

Lemma homeEntry_range (color : Color) : 0 <= HOME_ENTRY_INDICES color < 52.
Proof. destruct color; simpl; lia. Qed.

Lemma distToHomeEntry_mod color i :
  0 <= i < 52 ->
  Z.rem (HOME_ENTRY_INDICES color - i + 52) 52 = (HOME_ENTRY_INDICES color - i + 52) mod 52.
Proof. intros H. pose proof (homeEntry_range color). apply Z.rem_mod_nonneg; lia. Qed.

Lemma destination_track_stay color i dice :
  0 <= i < 52 -> 1 <= dice ->
  dice <= (HOME_ENTRY_INDICES color - i + 52) mod 52 ->
  destination color (Track i) dice = Track ((i + dice) mod 52).
Proof.
  intros Hi Hd Hle. unfold destination, movePath, Track.
  destruct (Z.eqb_spec i (-1)) as [?|_]; [lia|].
  destruct (Z.leb_spec 0 i); [|lia]. destruct (Z.ltb_spec i 52); [|lia]. simpl.
  rewrite distToHomeEntry_mod by lia.
  destruct (Z.leb_spec dice ((HOME_ENTRY_INDICES color - i + 52) mod 52)); [|lia].
  rewrite pushRange_last by lia. apply Z.rem_mod_nonneg; lia.
Qed.

Lemma destination_track_home color i dice :
  0 <= i < 52 ->
  (HOME_ENTRY_INDICES color - i + 52) mod 52 < dice ->
  destination color (Track i) dice
  = Home (dice - (HOME_ENTRY_INDICES color - i + 52) mod 52 - 1).
Proof.
  intros Hi Hlt. unfold destination, movePath, Track, Home.
  destruct (Z.eqb_spec i (-1)) as [?|_]; [lia|].
  destruct (Z.leb_spec 0 i); [|lia]. destruct (Z.ltb_spec i 52); [|lia]. simpl.
  rewrite distToHomeEntry_mod by lia.
  destruct (Z.leb_spec dice ((HOME_ENTRY_INDICES color - i + 52) mod 52)); [lia|].
  rewrite last_app, pushRange_last by lia. reflexivity.
Qed.

Lemma canMoveToken_track st color i dice :
  0 <= i < 52 ->
  canMoveToken st color (Track i) dice =
  let d := (HOME_ENTRY_INDICES color - i + 52) mod 52 in
  if dice <=? d then negb (isOccupiedByPlayer st color (Z.rem (i + dice) 52))
  else (dice - d - 1 <=? 5) && negb (isOccupiedByPlayer st color (Home (dice - d - 1))).
Proof.
  intros Hi. unfold canMoveToken, Track, Home.
  destruct (Z.eqb_spec i (-1)) as [?|_]; [lia|].
  destruct (Z.leb_spec 0 i); [|lia]. destruct (Z.ltb_spec i 52); [|lia]. simpl.
  rewrite distToHomeEntry_mod by lia.
  destruct (dice <=? _).
  - destruct (isOccupiedByPlayer _ _ _); reflexivity.
  - destruct (Z.leb_spec 6 (dice - (HOME_ENTRY_INDICES color - i + 52) mod 52 - 1));
      destruct (Z.leb_spec (dice - (HOME_ENTRY_INDICES color - i + 52) mod 52 - 1) 5);
      try lia; reflexivity.
Qed.

(** On the track [moveToken] never throws: it moves the token to the
    destination square. *)
Lemma moveToken_from_track color slot i dice st :
  posOf st color slot = Some (Track i) -> 0 <= i < 52 ->
  moveToken color slot dice None st = Done (moved color slot (Track i) dice st).
Proof.
  intros Hs Hi. unfold posOf, Track in *. rewrite moveToken_cases, Hs. unfold onBoard.
  destruct (Z.eqb_spec i (-1)) as [?|_]; [lia|].
  destruct (Z.leb_spec 0 i); [|lia]. destruct (Z.ltb_spec i 52); [|lia]. reflexivity.
Qed.

(** ** [killTokensAt] on a defined square *)

Lemma getTokensAtPosition_elem st p except c k :
  In (c, k) (getTokensAtPosition st (Some p) except)
  <-> c <> except /\ (k < TOKEN_COUNT)%nat /\ posOf st c k = Some p.
Proof.
  unfold getTokensAtPosition, posOf. rewrite in_flat_map. split.
  - intros [pc [_ Hin]]. destruct (bool_decide_reflect (pc = except)) as [|Hne];
      [destruct Hin|].
    apply in_flat_map in Hin. destruct Hin as [i [Hi Hin]]. apply in_seq in Hi.
    destruct (bool_decide_reflect (tokens st pc !! i = Some p)) as [Hp|]; [|destruct Hin].
    destruct Hin as [Heq|[]]. inversion Heq; subst. repeat split; [exact Hne|lia|exact Hp].
  - intros (Hne & Hk & Hp). exists c. split; [destruct c; simpl; tauto|].
    destruct (bool_decide_reflect (c = except)); [contradiction|].
    apply in_flat_map. exists k. split; [apply in_seq; lia|].
    destruct (bool_decide_reflect (tokens st c !! k = Some p)); [left; reflexivity|contradiction].
Qed.

Lemma sendToBase_posOf (l : list (Color * nat)) st c k :
  is_Some (posOf st c k) ->
  posOf (fold_left (fun s tk => set_pos (fst tk) (snd tk) (-1) s) l st) c k
  = if bool_decide ((c, k) ∈ l) then Some Base else posOf st c k.
Proof.
  revert st. induction l as [|[c' k'] l IH]; intros st Hsome; simpl.
  - reflexivity.
  - assert (Hstep : posOf (set_pos c' k' (-1) st) c k
                    = if bool_decide ((c', k') = (c, k)) then Some Base else posOf st c k).
    { unfold posOf in *. destruct (bool_decide_reflect ((c', k') = (c, k))) as [Heq|Hne].
      - inversion Heq; subst. rewrite set_pos_tokens_same.
        apply list_lookup_insert_eq, lookup_lt_is_Some, Hsome.
      - destruct (decide (c = c')) as [->|Hc].
        + rewrite set_pos_tokens_same. apply list_lookup_insert_ne. congruence.
        + rewrite set_pos_tokens_other by assumption. reflexivity. }
    rewrite IH
      by (rewrite Hstep; destruct (bool_decide ((c', k') = (c, k))); [eauto|exact Hsome]).
    rewrite Hstep.
    destruct (bool_decide_reflect ((c, k) ∈ l)) as [Hin|Hnin].
    + rewrite bool_decide_eq_true_2 by (apply list_elem_of_further, Hin). reflexivity.
    + destruct (bool_decide_reflect ((c', k') = (c, k))) as [Heq|Hne].
      * rewrite bool_decide_eq_true_2 by (rewrite Heq; apply list_elem_of_here). reflexivity.
      * rewrite bool_decide_eq_false_2; [reflexivity|].
        intros Hin. apply elem_of_cons in Hin as [Heq|Hin]; [congruence|contradiction].
Qed.

(** Called with a non-safe track square, [killTokensAt] sends every token of
    another colour standing there to its base and leaves the rest alone. *)
Lemma killTokensAt_captures st p except c k :
  isSafeSpot (Some p) = false -> p < 100 ->
  (k < TOKEN_COUNT)%nat -> is_Some (posOf st c k) ->
  posOf (killTokensAt (Some p) except st) c k
  = if bool_decide (c <> except /\ posOf st c k = Some p) then Some Base else posOf st c k.
Proof.
  intros Hsafe Hp Hk Hsome. unfold killTokensAt. rewrite Hsafe. simpl.
  destruct (Z.leb_spec 100 p); [lia|].
  rewrite sendToBase_posOf by exact Hsome.
  destruct (bool_decide_reflect (c <> except /\ posOf st c k = Some p)) as [[H1 H2]|Hn].
  - rewrite bool_decide_eq_true_2; [reflexivity|].
    apply list_elem_of_In, getTokensAtPosition_elem. auto.
  - rewrite bool_decide_eq_false_2; [reflexivity|].
    intros Hin. apply list_elem_of_In, getTokensAtPosition_elem in Hin. apply Hn. tauto.
Qed.

(** ** The finishing square in reachable states *)

Lemma playInv_same_tokens st st' :
  tokens st' = tokens st -> winner st' = winner st -> playInv st -> playInv st'.
Proof.
  intros Ht Hw (Hwf & Hsole & Hnone). unfold playInv, wf_tokens, soleFinisher, posOf.
  rewrite Ht, Hw. auto.
Qed.

(** A legal move ends on the start position itself (empty path) or on a
    square free of the mover's colour. *)
Lemma destination_free st color startPos dice :
  canMoveToken st color startPos dice = true ->
  destination color startPos dice = startPos
  \/ isOccupiedByPlayer st color (destination color startPos dice) = false.
Proof.
  intros Hc. unfold destination, movePath, canMoveToken in *.
  destruct (startPos =? -1).
  - right. simpl. destruct (dice =? 6); [|discriminate]. simpl in Hc.
    destruct (isOccupiedByPlayer _ _ _); [discriminate|reflexivity].
  - destruct ((0 <=? startPos) && (startPos <? 52)) eqn:Ht.
    + simpl in *. set (d := Z.rem (HOME_ENTRY_INDICES color - startPos + 52) 52) in *.
      destruct (Z.leb_spec dice d) as [Hle|Hgt].
      * rewrite pushRange_last_cases. destruct (1 <=? dice); [right|left; reflexivity].
        destruct (isOccupiedByPlayer _ _ _); [discriminate|reflexivity].
      * destruct (6 <=? dice - d - 1); [discriminate|].
        rewrite last_app, pushRange_last_cases.
        destruct (Z.leb_spec 0 (dice - d - 1)); [right|lia].
        destruct (isOccupiedByPlayer _ _ _); [discriminate|reflexivity].
    + simpl in *. destruct (100 <=? startPos); [|discriminate].
      destruct (6 <=? startPos - 100 + dice); [discriminate|].
      rewrite pushRange_last_cases. destruct (1 <=? dice); [right|left; reflexivity].
      replace (100 + (startPos - 100) + dice) with (100 + (startPos - 100 + dice)) by lia.
      destruct (isOccupiedByPlayer _ _ _); [discriminate|reflexivity].
Qed.

Lemma checkWinState_no_winner c st :
  wf_tokens st -> soleFinisher st -> winner st = None ->
  winner (checkWinState c st) = None.
Proof.
  intros Hwf Hsole Hnone. unfold checkWinState.
  destruct (forallb _ _) eqn:Hall; [exfalso|exact Hnone].
  specialize (Hwf c). specialize (Hsole c 0%nat 1%nat). unfold posOf, Finished, Home in Hsole.
  destruct (tokens st c) as [|a [|b l]]; try discriminate Hwf.
  simpl in Hall. apply andb_true_iff in Hall as [Ha Hall].
  apply andb_true_iff in Hall as [Hb _].
  apply Z.eqb_eq in Ha, Hb. subst. discriminate (Hsole eq_refl eq_refl).
Qed.

Lemma playInv_checkWin o st :
  playInv st -> playInv (state_of (checkWin o st)).
Proof.
  intros Hinv. destruct o as [c|]; [|exact Hinv].
  rewrite checkWin_Some. simpl. destruct Hinv as (Hwf & Hsole & Hnone).
  split; [|split].
  - intros c'. rewrite checkWinState_tokens. apply Hwf.
  - unfold soleFinisher, posOf. rewrite checkWinState_tokens. exact Hsole.
  - apply checkWinState_no_winner; assumption.
Qed.

Lemma playInv_moved color slot startPos dice st :
  posOf st color slot = Some startPos ->
  canMoveToken st color startPos dice = true ->
  playInv st -> playInv (moved color slot startPos dice st).
Proof.
  intros Hs Hc (Hwf & Hsole & Hnone).
  set (mid := finalizeState dice
                (animateSteps color slot (movePath color startPos dice)
                   (set_isRolling true st))).
  assert (Hmid : forall c k, posOf mid c k = posOf (moved color slot startPos dice st) c k).
  { intros c k. unfold posOf, moved. fold mid. rewrite checkWinState_tokens. reflexivity. }
  assert (Hwf' : wf_tokens mid).
  { intros c. unfold mid. rewrite finalizeState_tokens.
    destruct (decide (c = color)) as [->|Hne].
    - rewrite animateSteps_tokens_same. simpl.
      destruct (list.last _); [rewrite length_insert|]; apply Hwf.
    - rewrite animateSteps_tokens_other by assumption. apply Hwf. }
  assert (Hsole' : soleFinisher mid).
  { assert (Hkey : forall k, k <> slot -> posOf st color k = Some Finished ->
                             destination color startPos dice = Finished -> False).
    { intros k Hk Hpk Hdest.
      destruct (destination_free st color startPos dice Hc) as [Heq|Hfree].
      - apply Hk. apply (Hsole color); [exact Hpk | congruence].
      - apply isOccupiedByPlayer_free in Hfree. apply Hfree. exists k. split.
        + rewrite <- (Hwf color). apply lookup_lt_is_Some. unfold posOf in Hpk.
          rewrite Hpk. eauto.
        + rewrite Hdest. exact Hpk. }
    intros c i j Hi Hj. rewrite Hmid in Hi, Hj.
    destruct (decide (c = color)) as [->|Hne].
    - destruct (decide (i = slot)) as [->|Hi'], (decide (j = slot)) as [->|Hj'];
        [reflexivity | | |].
      + rewrite moved_posOf_same in Hi by exact Hs.
        rewrite moved_posOf_other in Hj by (try exact Hs; congruence).
        exfalso. apply (Hkey j Hj' Hj). congruence.
      + rewrite moved_posOf_same in Hj by exact Hs.
        rewrite moved_posOf_other in Hi by (try exact Hs; congruence).
        exfalso. apply (Hkey i Hi' Hi). congruence.
      + rewrite moved_posOf_other in Hi, Hj by (try exact Hs; congruence).
        apply (Hsole color); assumption.
    - rewrite moved_posOf_other in Hi, Hj by (try exact Hs; congruence).
      apply (Hsole c); assumption. }
  assert (Hnone' : winner mid = None).
  { unfold mid, finalizeState. destruct (dice =? 6); simpl;
      rewrite <- Hnone;
      apply (animateSteps_fields color slot (movePath color startPos dice)
               (set_isRolling true st)). }
  unfold moved. fold mid. split; [|split].
  - intros c. rewrite checkWinState_tokens. apply Hwf'.
  - unfold soleFinisher, posOf. rewrite checkWinState_tokens. exact Hsole'.
  - apply checkWinState_no_winner; assumption.
Qed.

Lemma playInv_step e st : playInv st -> playInv (state_of (handle e st)).
Proof.
  intros Hinv. destruct e as [roll|color index|]; simpl.
  - destruct (rollBtnDisabled st); [exact Hinv|]. unfold onRollDice.
    destruct (isRolling st || bool_decide (diceRoll st <> None)); [exact Hinv|].
    destruct (currentColor _); simpl;
      [destruct (negb _)|]; (eapply playInv_same_tokens; [| |exact Hinv]; reflexivity).
  - unfold onTokenClick.
    destruct (bool_decide _); [exact Hinv|].
    destruct (isRolling st); [exact Hinv|].
    destruct (diceRoll st) as [dice|]; [|exact Hinv].
    destruct (tokens st color !! index) as [pos|] eqn:Hs; [|exact Hinv].
    destruct (canMoveToken st color pos dice) eqn:Hc; [|exact Hinv]. simpl.
    rewrite (moveToken_legal color index pos dice st Hs Hc). simpl.
    apply playInv_moved; assumption.
  - destruct (passTimers st) as [|roll rest]; [exact Hinv|].
    unfold passTurn. rewrite finalizeMove_no_callback.
    apply playInv_checkWin.
    eapply playInv_same_tokens; [| |exact Hinv].
    + rewrite finalizeState_tokens. reflexivity.
    + unfold finalizeState. destruct (roll =? 6); reflexivity.
Qed.

Lemma playInv_initial : playInv initialState.
Proof.
  split; [|split].
  - intros c. reflexivity.
  - intros c i j Hi Hj. exfalso. unfold posOf in Hi. simpl in Hi.
    destruct i as [|[|[|[|i]]]]; discriminate Hi.
  - reflexivity.
Qed.

(** ** Games played from the initial state *)

Lemma browser_eta b : mkBrowser (game b) (stepTimers b) = b.
Proof. destruct b; reflexivity. Qed.

Lemma browserRun_no_timer n b :
  stepTimers b = [] -> browserRun (repeat StepTimeout n) b = b.
Proof.
  intros H. induction n as [|n IH]; [reflexivity|]. simpl. rewrite H. exact IH.
Qed.

(** Once its step timers have all fired, an animation started with no other
    timer pending has done what [animateTokenMovement] run to completion
    does. *)
Lemma animateCall_completes color idx steps cb g :
  browserRun (repeat StepTimeout (length steps))
    (animateCall color idx steps cb (mkBrowser g []))
  = mkBrowser (state_of (animateTokenMovement color idx steps cb g)) [].
Proof.
  revert g. induction steps as [|p steps IH]; intros g; [reflexivity|].
  simpl repeat. unfold animateCall at 1. cbn [game stepTimers]. simpl animateTokenMovement.
  destruct (tokens g color !! idx) as [q|] eqn:Hq.
  - simpl. unfold stepTimeout. cbn [game stepTimers timerColor timerIndex timerStepPos
                                    timerSteps timerCallback tokens set_frames].
    rewrite Hq. apply IH.
  - change (browserRun (repeat StepTimeout (S (length steps))) (mkBrowser g []) = mkBrowser g []).
    apply browserRun_no_timer. reflexivity.
Qed.

Lemma moveTokenAsync_completes color idx dice cbk g :
  exists n,
    browserRun (repeat StepTimeout n) (moveTokenAsync color idx dice cbk (mkBrowser g []))
    = mkBrowser (state_of (moveToken color idx dice cbk g)) [].
Proof.
  unfold moveTokenAsync, moveToken. cbn [game stepTimers].
  destruct (tokens g color !! idx) as [startPos|]; [|exists 0%nat; reflexivity].
  destruct (startPos =? -1).
  - destruct (negb (dice =? 6)); [exists 0%nat; reflexivity|].
    destruct (isOccupiedByPlayer _ _ _); [exists 0%nat; reflexivity|].
    eexists. apply animateCall_completes.
  - destruct ((0 <=? startPos) && (startPos <? 52)).
    + cbv zeta. destruct (dice <=? _); eexists; apply animateCall_completes.
    + destruct (100 <=? startPos); [|exists 0%nat; reflexivity].
      eexists. apply animateCall_completes.
Qed.

(** A handler event, with the step timers it starts run to their end, takes
    a state without pending step timer to the state [handle] computes. *)
Lemma handle_simulated e g :
  exists n,
    browserRun (Handler e :: repeat StepTimeout n) (mkBrowser g [])
    = mkBrowser (state_of (handle e g)) [].
Proof.
  destruct e as [roll|color index|]; try (exists 0%nat; reflexivity).
  simpl. unfold onTokenClickAsync, onTokenClick. cbn [game].
  destruct (bool_decide _); [exists 0%nat; reflexivity|].
  destruct (isRolling g); [exists 0%nat; reflexivity|].
  destruct (diceRoll g) as [dice|]; [|exists 0%nat; reflexivity].
  destruct (tokens g color !! index) as [pos|]; [|exists 0%nat; reflexivity].
  destruct (negb (canMoveToken g color pos dice)); [exists 0%nat; reflexivity|].
  apply moveTokenAsync_completes.
Qed.

Lemma browserRun_reachable es b :
  Forall valid_browser_event es -> browserReachable b -> browserReachable (browserRun es b).
Proof.
  intros Hes. revert b. induction Hes as [|e es He Hes IH]; intros b Hb; [exact Hb|].
  simpl. apply IH. apply browserReachable_step; assumption.
Qed.

Lemma idleReachable_init : idleReachable initialState.
Proof. exists (mkBrowser initialState []). split; [constructor|split; reflexivity]. Qed.

Lemma idleReachable_step st e :
  idleReachable st -> valid_event e -> idleReachable (state_of (handle e st)).
Proof.
  intros (b & Hb & Hg & Ht) Hv. destruct (handle_simulated e st) as [n Hn].
  exists (mkBrowser (state_of (handle e st)) []). split; [|split; reflexivity].
  rewrite <- Hn. apply browserRun_reachable.
  - constructor; [exact Hv|]. clear. induction n; simpl; constructor; [exact I|assumption].
  - destruct b as [g ts]. simpl in *. subst. exact Hb.
Qed.

Lemma idleReachable_reachable st : idleReachable st -> reachable st.
Proof. intros (b & Hb & Hg & _). exists b. split; assumption. Qed.

Lemma run_reachable es st :
  Forall valid_event es -> idleReachable st -> reachable (run es st).
Proof.
  intros Hes Hr. apply idleReachable_reachable. revert st Hr.
  induction Hes as [|e es He Hes IH]; intros st Hr; [exact Hr|].
  simpl. apply IH. apply idleReachable_step; assumption.
Qed.

(** In play the finishing square is already refused to a second token: red
    has a token on [Home(5)], another on [Home(4)], rolls a 1, and the last
    step is not legal. *)
Lemma second_finisher_refused :
  exists st,
    reachable st
    /\ currentColor st = Some red /\ diceRoll st = Some 1
    /\ posOf st red 0 = Some Finished /\ posOf st red 1 = Some (Home 4)
    /\ canMoveToken st red (Home 4) 1 = false
    /\ onTokenClick red 1 st = Done st.
Proof.
  exists (run secondFinisherGame initialState). split.
  - apply run_reachable; [|apply idleReachable_init].
    unfold secondFinisherGame, sixes, othersPass. simpl.
    repeat constructor; simpl; lia.
  - do 5 (split; [vm_compute; reflexivity|]). vm_compute. reflexivity.
Qed.

(** * The track rule *)

(** C4: for a token on shared-track index [i], with
    [d = (homeEntry[color] - i + 52) mod 52]: if [dice <= d] the move ends on
    [Track((i + dice) mod 52)] and is legal iff that square holds no token of
    the same colour (tokens of other colours play no part); if [dice > d] it
    ends on [Home(dice - d - 1)] and is legal iff [dice - d - 1 <= 5] and that
    home square holds no token of the same colour. *)
Theorem C4_track_move_rule st color slot i dice :
  posOf st color slot = Some (Track i) -> 0 <= i < 52 -> 1 <= dice ->
  let d := (HOME_ENTRY_INDICES color - i + 52) mod 52 in
  (dice <= d ->
     (exists st', moveToken color slot dice None st = Done st'
                  /\ posOf st' color slot = Some (Track ((i + dice) mod 52)))
     /\ (canMoveToken st color (Track i) dice = true
         <-> ~ holdsTokenOf st color (Track ((i + dice) mod 52))))
  /\ (d < dice ->
     (exists st', moveToken color slot dice None st = Done st'
                  /\ posOf st' color slot = Some (Home (dice - d - 1)))
     /\ (canMoveToken st color (Track i) dice = true
         <-> dice - d - 1 <= 5 /\ ~ holdsTokenOf st color (Home (dice - d - 1)))).
Proof.
  intros Hs Hi Hd d. split; intros Hcmp.
  - split.
    + exists (moved color slot (Track i) dice st). split.
      * apply moveToken_from_track; assumption.
      * rewrite moved_posOf_same by exact Hs. f_equal.
        apply destination_track_stay; assumption.
    + rewrite canMoveToken_track by exact Hi. fold d. simpl.
      destruct (Z.leb_spec dice d); [|lia].
      rewrite Z.rem_mod_nonneg by lia.
      rewrite negb_true_iff. apply isOccupiedByPlayer_free.
  - split.
    + exists (moved color slot (Track i) dice st). split.
      * apply moveToken_from_track; assumption.
      * rewrite moved_posOf_same by exact Hs. f_equal.
        apply destination_track_home; assumption.
    + rewrite canMoveToken_track by exact Hi. fold d. simpl.
      destruct (Z.leb_spec dice d); [lia|].
      rewrite andb_true_iff, negb_true_iff, Z.leb_le, isOccupiedByPlayer_free.
      reflexivity.
Qed.

Lemma C4_track_move_rule_witness :
  posOf (board 0 (Some 6) [47; Base; Base; Base] inBase inBase inBase) red 0 = Some (Track 47)
  /\ 0 <= 47 < 52 /\ 1 <= 6
  /\ exists st',
       moveToken red 0 6 None (board 0 (Some 6) [47; Base; Base; Base] inBase inBase inBase)
       = Done st'
       /\ posOf st' red 0 = Some (Home 2).
Proof.
  split; [reflexivity|]. split; [lia|]. split; [lia|].
  destruct (C4_track_move_rule
              (board 0 (Some 6) [47; Base; Base; Base] inBase inBase inBase) red 0%nat 47 6
              eq_refl ltac:(lia) ltac:(lia)) as [_ H].
  destruct H as [H _]; [reflexivity | exact H].
Defined.

(** * The path of a move *)

(** C9: a red token on [Track(47)] moved by a 6 (red enters its lane after
    index 50) ends on [Home(2)], the squares it is drawn on are, in order,
    [Track(48), Track(49), Track(50), Home(0), Home(1), Home(2)], and the move
    is legal exactly when no red token stands on [Home(2)]. *)
Theorem C9_red_47_six st slot :
  posOf st red slot = Some (Track 47) ->
  movePath red (Track 47) 6 = [Track 48; Track 49; Track 50; Home 0; Home 1; Home 2]
  /\ (canMoveToken st red (Track 47) 6 = true <-> ~ holdsTokenOf st red (Home 2))
  /\ exists st',
       moveToken red slot 6 None st = Done st'
       /\ posOf st' red slot = Some (Home 2)
       /\ frames st' = frames st
            ++ [(red, slot, Track 48); (red, slot, Track 49); (red, slot, Track 50);
                (red, slot, Home 0); (red, slot, Home 1); (red, slot, Home 2)].
Proof.
  intros Hs. split; [reflexivity|]. split.
  - rewrite canMoveToken_track by lia. simpl.
    rewrite negb_true_iff. apply isOccupiedByPlayer_free.
  - exists (moved red slot (Track 47) 6 st). split; [|split].
    + apply moveToken_from_track; [exact Hs | lia].
    + rewrite moved_posOf_same by exact Hs. reflexivity.
    + rewrite moved_frames. reflexivity.
Qed.

Lemma C9_red_47_six_witness :
  posOf (board 0 (Some 6) [47; Base; Base; Base] inBase inBase inBase) red 0 = Some (Track 47)
  /\ canMoveToken (board 0 (Some 6) [47; Base; Base; Base] inBase inBase inBase)
       red (Track 47) 6 = true.
Proof.
  split; [reflexivity|].
  apply (C9_red_47_six (board 0 (Some 6) [47; Base; Base; Base] inBase inBase inBase)
           0%nat eq_refl).
  intros [k [_ Hp]]. destruct k as [|[|[|[|k]]]]; discriminate Hp.
Defined.

(** * Frame of a move *)

(** C10: a legal move of colour [color] on slot [slot] changes no token
    position other than the moved token's own and those of opponent tokens
    standing on the destination square; in particular the three other tokens
    of [color] keep their positions. *)
Theorem C10_move_frame st color slot startPos dice :
  posOf st color slot = Some startPos ->
  canMoveToken st color startPos dice = true ->
  exists st' dest,
    moveToken color slot dice None st = Done st'
    /\ posOf st' color slot = Some dest
    /\ (forall c k, posOf st' c k <> posOf st c k ->
          (c = color /\ k = slot) \/ (c <> color /\ posOf st c k = Some dest))
    /\ (forall k, k <> slot -> posOf st' color k = posOf st color k).
Proof.
  intros Hs Hc.
  exists (moved color slot startPos dice st), (destination color startPos dice).
  split; [apply moveToken_legal; assumption|].
  split; [apply moved_posOf_same; exact Hs|]. split.
  - intros c k Hne. left.
    destruct (decide ((c, k) = (color, slot))) as [Heq|Hd].
    + inversion Heq. split; reflexivity.
    + exfalso. apply Hne. apply moved_posOf_other; assumption.
  - intros k Hk. apply moved_posOf_other; [exact Hs | congruence].
Qed.

Lemma C10_move_frame_witness :
  posOf (board 1 (Some 4) [1; Base; Base; Base] [49; 20; Base; Base] inBase inBase) blue 0
  = Some (Track 49)
  /\ canMoveToken (board 1 (Some 4) [1; Base; Base; Base] [49; 20; Base; Base] inBase inBase)
       blue (Track 49) 4 = true
  /\ exists st' dest,
       moveToken blue 0 4 None
         (board 1 (Some 4) [1; Base; Base; Base] [49; 20; Base; Base] inBase inBase) = Done st'
       /\ posOf st' blue 0 = Some dest
       /\ posOf st' blue 1 = Some (Track 20).
Proof.
  split; [reflexivity|]. split; [reflexivity|].
  destruct (C10_move_frame
              (board 1 (Some 4) [1; Base; Base; Base] [49; 20; Base; Base] inBase inBase)
              blue 0%nat (Track 49) 4 eq_refl eq_refl) as (st' & dest & H1 & H2 & _ & H4).
  exists st', dest. split; [exact H1|]. split; [exact H2|].
  rewrite (H4 1%nat) by discriminate. reflexivity.
Defined.

(** * Turn order *)

Lemma turnAfter_finalize dice st s' :
  0 <= currentPlayerIndex st ->
  currentPlayerIndex s' = (if dice =? 6 then currentPlayerIndex st else getNextPlayerIndex st) ->
  diceRoll s' = None -> isRolling s' = false -> turnAfter dice st s'.
Proof.
  intros H0 Hp Hd Hr. unfold turnAfter. repeat split; try assumption.
  - intros ->. exact Hp.
  - intros Hne. rewrite Hp. destruct (Z.eqb_spec dice 6); [contradiction|].
    apply getNextPlayerIndex_mod. exact H0.
Qed.

(** C5: after a legal move and after a pass alike, a 6 leaves the current
    player index unchanged and clears the pending roll, so the same colour
    rolls again; any other value advances the index by one modulo 4. *)
Theorem C5_turn_advance st dice :
  0 <= currentPlayerIndex st ->
  (forall color slot startPos,
      posOf st color slot = Some startPos ->
      canMoveToken st color startPos dice = true ->
      exists st', moveToken color slot dice None st = Done st' /\ turnAfter dice st st')
  /\ turnAfter dice st (state_of (passTurn dice st)).
Proof.
  intros H0. split.
  - intros color slot startPos Hs Hc.
    exists (moved color slot startPos dice st).
    split; [apply moveToken_legal; assumption|].
    destruct (moved_turn color slot startPos dice st) as (Hp & Hd & Hr).
    apply turnAfter_finalize; assumption.
  - unfold passTurn. rewrite finalizeMove_no_callback.
    assert (Hst : forall o, state_of (checkWin o (finalizeState dice st))
                            = finalizeState dice st
                            \/ exists c, state_of (checkWin o (finalizeState dice st))
                                         = checkWinState c (finalizeState dice st)).
    { intros [c|]; [right; exists c; rewrite checkWin_Some|left]; reflexivity. }
    destruct (Hst (currentColor st)) as [->|[c ->]].
    + apply turnAfter_finalize;
        [exact H0 | apply finalizeState_player | apply finalizeState_diceRoll
        | apply finalizeState_isRolling].
    + destruct (checkWinState_turn c (finalizeState dice st)) as (Hp & Hd & Hr).
      apply turnAfter_finalize; [exact H0 | | | ].
      * rewrite Hp. apply finalizeState_player.
      * rewrite Hd. apply finalizeState_diceRoll.
      * rewrite Hr. apply finalizeState_isRolling.
Qed.

Lemma C5_turn_advance_witness :
  0 <= currentPlayerIndex (board 3 (Some 2) inBase inBase inBase [Track 5; Base; Base; Base])
  /\ (exists st',
        moveToken yellow 0 2 None
          (board 3 (Some 2) inBase inBase inBase [Track 5; Base; Base; Base]) = Done st'
        /\ turnAfter 2 (board 3 (Some 2) inBase inBase inBase [Track 5; Base; Base; Base]) st')
  /\ turnAfter 2 (board 3 (Some 2) inBase inBase inBase [Track 5; Base; Base; Base])
       (state_of (passTurn 2 (board 3 (Some 2) inBase inBase inBase [Track 5; Base; Base; Base]))).
Proof.
  split; [simpl; lia|].
  destruct (C5_turn_advance
              (board 3 (Some 2) inBase inBase inBase [Track 5; Base; Base; Base]) 2
              ltac:(simpl; lia)) as [Hmove Hpass].
  split; [|exact Hpass].
  apply (Hmove yellow 0%nat (Track 5)); reflexivity.
Defined.

(** * Home lane bound *)

Lemma startIndex_range (color : Color) : 0 <= START_INDICES color < 52.
Proof. destruct color; simpl; lia. Qed.

Lemma canMoveToken_home st color j dice :
  0 <= j -> canMoveToken st color (Home j) dice = true -> j + dice <= 5.
Proof.
  intros Hj. unfold canMoveToken, Home.
  destruct (Z.eqb_spec (100 + j) (-1)); [lia|].
  destruct (Z.ltb_spec (100 + j) 52); [lia|]. rewrite andb_false_r.
  destruct (Z.leb_spec 100 (100 + j)); [|lia].
  destruct (Z.leb_spec 6 (100 + j - 100 + dice)); [discriminate|]. lia.
Qed.

(** A legal move from a valid position ends on a valid position. *)
Lemma destination_valid st color startPos dice :
  validPos startPos ->
  canMoveToken st color startPos dice = true ->
  validPos (destination color startPos dice).
Proof.
  intros Hv Hc. pose proof (startIndex_range color) as Hst.
  pose proof (homeEntry_range color) as Hhe.
  unfold destination, movePath, canMoveToken, validPos, Base in *.
  destruct (Z.eqb_spec startPos (-1)) as [->|Hb]; [simpl; lia|].
  destruct (Z.leb_spec 0 startPos) as [H0|H0];
    [destruct (Z.ltb_spec startPos 52) as [H1|H1] |]; simpl in *.
  - set (d := Z.rem (HOME_ENTRY_INDICES color - startPos + 52) 52) in *.
    assert (Hd : 0 <= d < 52) by (apply Z.rem_bound_pos; lia).
    destruct (Z.leb_spec dice d) as [Hle|Hgt].
    + rewrite pushRange_last_cases. destruct (Z.leb_spec 1 dice); [|lia].
      right. left. apply Z.rem_bound_pos; lia.
    + destruct (Z.leb_spec 6 (dice - d - 1)); [discriminate|].
      rewrite last_app, pushRange_last_cases.
      destruct (Z.leb_spec 0 (dice - d - 1)); lia.
  - destruct (Z.leb_spec 100 startPos) as [Hh|Hh]; [|lia].
    destruct (Z.leb_spec 6 (startPos - 100 + dice)); [discriminate|].
    rewrite pushRange_last_cases. destruct (Z.leb_spec 1 dice); lia.
  - lia.
Qed.

(** [moveToken] itself does not test the move, [onTokenClick], its only
    caller, does: called on a token on [Home(4)] with a 6, which
    [canMoveToken] refuses, [moveToken] walks the token to position 110. *)
Lemma moveToken_past_finish :
  canMoveToken (board 3 (Some 6) inBase inBase inBase [Home 4; Track 30; Base; Base])
    yellow (Home 4) 6 = false
  /\ posOf (state_of (moveToken yellow 0 6 None
                        (board 3 (Some 6) inBase inBase inBase
                           [Home 4; Track 30; Base; Base])))
       yellow 0 = Some 110.
Proof. split; vm_compute; reflexivity. Qed.

(** C8: no move puts a token on a home-lane index above 5 (a position above
    105): from [Home(j)] a move is legal only when [j + dice <= 5], and on a
    board of valid positions a click on any token of any colour, whatever
    roll is pending, leaves every token on a valid position, so every home
    index stays within 0..5 (the click carries out the move when it is legal
    and changes nothing otherwise). *)
Theorem C8_home_index_bound st color slot :
  allValid st ->
  (forall j dice, 0 <= j -> canMoveToken st color (Home j) dice = true -> j + dice <= 5)
  /\ allValid (state_of (onTokenClick color slot st))
  /\ (forall c k p, posOf (state_of (onTokenClick color slot st)) c k = Some p -> p <= 105)
  /\ (forall startPos dice,
        posOf st color slot = Some startPos ->
        canMoveToken st color startPos dice = true ->
        exists st', moveToken color slot dice None st = Done st' /\ allValid st').
Proof.
  intros Hall.
  assert (Hmoved : forall startPos dice,
            posOf st color slot = Some startPos ->
            canMoveToken st color startPos dice = true ->
            allValid (moved color slot startPos dice st)).
  { intros startPos dice Hs Hc c k p Hp.
    destruct (decide ((c, k) = (color, slot))) as [Heq|Hne].
    - inversion Heq; subst. rewrite moved_posOf_same in Hp by exact Hs.
      inversion Hp; subst. eapply destination_valid; [|exact Hc].
      eapply Hall; exact Hs.
    - rewrite moved_posOf_other in Hp by assumption. eapply Hall; exact Hp. }
  assert (Hclick : allValid (state_of (onTokenClick color slot st))).
  { unfold onTokenClick.
    destruct (bool_decide _); [exact Hall|]. destruct (isRolling st); [exact Hall|].
    destruct (diceRoll st) as [dice|]; [|exact Hall].
    destruct (tokens st color !! slot) as [pos|] eqn:Hs; [|exact Hall].
    destruct (canMoveToken st color pos dice) eqn:Hc; [|exact Hall]. simpl.
    rewrite (moveToken_legal color slot pos dice st Hs Hc). simpl.
    apply Hmoved; assumption. }
  split; [intros j dice Hj Hc; eapply canMoveToken_home; eassumption|].
  split; [exact Hclick|]. split.
  - intros c k p Hp. specialize (Hclick c k p Hp). unfold validPos, Base in Hclick. lia.
  - intros startPos dice Hs Hc. exists (moved color slot startPos dice st).
    split; [apply moveToken_legal; assumption | apply Hmoved; assumption].
Qed.

Lemma C8_home_index_bound_witness :
  allValid (board 3 (Some 6) inBase inBase inBase [Home 4; Track 30; Base; Base])
  /\ canMoveToken (board 3 (Some 6) inBase inBase inBase [Home 4; Track 30; Base; Base])
       yellow (Home 4) 6 = false
  /\ allValid (state_of (onTokenClick yellow 0
                 (board 3 (Some 6) inBase inBase inBase [Home 4; Track 30; Base; Base])))
  /\ forall c k p,
       posOf (state_of (onTokenClick yellow 1
                (board 3 (Some 6) inBase inBase inBase [Home 4; Track 30; Base; Base])))
             c k = Some p -> p <= 105.
Proof.
  assert (Hall : allValid (board 3 (Some 6) inBase inBase inBase [Home 4; Track 30; Base; Base])).
  { intros c k p Hp. unfold validPos, Base.
    destruct c; destruct k as [|[|[|[|k]]]]; cbv in Hp; inversion Hp; subst; lia. }
  split; [exact Hall|]. split; [reflexivity|]. split.
  - apply (C8_home_index_bound
             (board 3 (Some 6) inBase inBase inBase [Home 4; Track 30; Base; Base])
             yellow 0%nat Hall).
  - apply (C8_home_index_bound
             (board 3 (Some 6) inBase inBase inBase [Home 4; Track 30; Base; Base])
             yellow 1%nat Hall).
Defined.

(** * Winning *)

(** C1: on [lastStepBoard] the finishing square already holds yellow tokens,
    so [canMoveToken] refuses the 1 and the click on the last token changes
    nothing: no winner is declared.  [moveToken] called directly would finish
    the token and make yellow the winner. *)
Theorem C1_last_token_refused :
  canMoveToken lastStepBoard yellow (Home 4) 1 = false
  /\ canAnyTokenMove lastStepBoard yellow 1 = false
  /\ onTokenClick yellow 3 lastStepBoard = Done lastStepBoard
  /\ winner (state_of (onTokenClick yellow 3 lastStepBoard)) = None
  /\ exists st',
       moveToken yellow 3 1 None lastStepBoard = Done st'
       /\ posOf st' yellow 3 = Some Finished
       /\ winner st' = Some yellow.
Proof.
  split; [reflexivity|]. split; [reflexivity|]. split; [reflexivity|].
  split; [reflexivity|].
  exists (moved yellow 3 (Home 4) 1 lastStepBoard).
  split; [rewrite moveToken_cases; reflexivity|]. split; reflexivity.
Qed.

(** * Capture *)

(** C2: the blue token of [captureBoard] legally lands on the non-safe square
    [Track(1)], and the red token standing there is still on [Track(1)]
    afterwards instead of being sent to the base. *)
Theorem C2_landing_does_not_capture :
  isSafeSpot (Some (Track 1)) = false
  /\ posOf captureBoard red 0 = Some (Track 1)
  /\ canMoveToken captureBoard blue (Track 49) 4 = true
  /\ exists st',
       onTokenClick blue 0 captureBoard = Done st'
       /\ posOf st' blue 0 = Some (Track 1)
       /\ posOf st' red 0 = Some (Track 1).
Proof.
  split; [reflexivity|]. split; [reflexivity|]. split; [reflexivity|].
  exists (moved blue 0 (Track 49) 4 captureBoard).
  split; [|split; reflexivity].
  unfold onTokenClick. simpl. rewrite moveToken_cases. reflexivity.
Qed.

(** Given the landing square itself, [killTokensAt] does capture there. *)
Example killTokensAt_on_landing_square :
  posOf (killTokensAt (Some (Track 1)) blue
           (board 1 None [Track 1; Base; Base; Base] [Track 1; Base; Base; Base] inBase inBase))
        red 0 = Some Base.
Proof. reflexivity. Qed.

(** * Reachable states *)

(** C6: the game [sharedSquareGame], played from the initial state with
    rolls and legal moves only, reaches a state in which a red and a blue
    token stand together on the non-safe square [Track(1)]. *)
Theorem C6_two_colors_share_square :
  exists st,
    reachable st
    /\ isSafeSpot (Some (Track 1)) = false
    /\ posOf st red 0 = Some (Track 1)
    /\ posOf st blue 0 = Some (Track 1).
Proof.
  exists (run sharedSquareGame initialState). split.
  - apply run_reachable; [|apply idleReachable_init].
    unfold sharedSquareGame. repeat constructor; simpl; lia.
  - split; [reflexivity|]. split; vm_compute; reflexivity.
Qed.

(** * Illegal moves *)

(** Counterexample to C3 as stated: on [blockedBoard] the move of red's
    first token is not legal, yet
    [moveToken] raises nothing and carries it out: the token is on
    [Track(5)], the turn has passed to blue and the pending roll is gone. *)
Lemma C3_moveToken_unchecked :
  canMoveToken blockedBoard red (Track 3) 2 = false
  /\ (forall e, moveToken red 0 2 None blockedBoard <> Thrown e blockedBoard)
  /\ posOf blockedBoard red 0 = Some (Track 3)
  /\ posOf (state_of (moveToken red 0 2 None blockedBoard)) red 0 = Some (Track 5)
  /\ currentPlayerIndex blockedBoard = 0
  /\ currentPlayerIndex (state_of (moveToken red 0 2 None blockedBoard)) = 1
  /\ diceRoll blockedBoard = Some 2
  /\ diceRoll (state_of (moveToken red 0 2 None blockedBoard)) = None.
Proof.
  assert (H : moveToken red 0 2 None blockedBoard
              = Done (moved red 0 (Track 3) 2 blockedBoard))
    by (rewrite moveToken_cases; reflexivity).
  rewrite H. split; [reflexivity|]. split; [discriminate|].
  repeat split; reflexivity.
Qed.

(** C3 (amended): when the move is not legal, [onTokenClick], which tests
    [canMoveToken] before it calls [moveToken], returns without raising and
    leaves the whole state as it was; [moveToken] itself raises an error,
    leaving the state as it was, when the token is in its base. *)
Theorem C3_illegal_move_no_change st color slot startPos dice :
  posOf st color slot = Some startPos ->
  canMoveToken st color startPos dice = false ->
  (diceRoll st = Some dice -> onTokenClick color slot st = Done st)
  /\ (startPos = Base -> exists e, moveToken color slot dice None st = Thrown e st).
Proof.
  intros Hs Hc. unfold posOf in Hs. split.
  - intros Hd. unfold onTokenClick.
    destruct (bool_decide _); [reflexivity|].
    destruct (isRolling st); [reflexivity|].
    rewrite Hd, Hs, Hc. reflexivity.
  - intros ->. rewrite moveToken_cases, Hs. unfold canMoveToken, Base in *. simpl in *.
    destruct (dice =? 6); simpl in *; [|eauto].
    destruct (isOccupiedByPlayer _ _ _); [eauto|discriminate].
Qed.

Lemma C3_illegal_move_no_change_witness :
  posOf (board 0 (Some 3) inBase inBase inBase inBase) red 0 = Some Base
  /\ canMoveToken (board 0 (Some 3) inBase inBase inBase inBase) red Base 3 = false
  /\ onTokenClick red 0 (board 0 (Some 3) inBase inBase inBase inBase)
     = Done (board 0 (Some 3) inBase inBase inBase inBase)
  /\ exists e, moveToken red 0 3 None (board 0 (Some 3) inBase inBase inBase inBase)
               = Thrown e (board 0 (Some 3) inBase inBase inBase inBase).
Proof.
  split; [reflexivity|]. split; [reflexivity|].
  destruct (C3_illegal_move_no_change
              (board 0 (Some 3) inBase inBase inBase inBase) red 0%nat Base 3
              eq_refl eq_refl) as [Hclick Hthrow].
  split; [apply Hclick; reflexivity | apply Hthrow; reflexivity].
Defined.

(** * After the game is won *)

(** Counterexample to C7 as stated: on [wonBoard] the winner is set, and
    [onRollDice] still accepts a roll:
    a 6 becomes pending and the roll counter goes up; [onTokenClick] then
    moves a red token out of its base. *)
Lemma C7_onRollDice_after_win :
  winner wonBoard = Some yellow
  /\ diceRoll wonBoard = None
  /\ rollCount wonBoard = 0
  /\ onRollDice 6 wonBoard <> Done wonBoard
  /\ diceRoll (state_of (onRollDice 6 wonBoard)) = Some 6
  /\ rollCount (state_of (onRollDice 6 wonBoard)) = 1
  /\ winner (state_of (onRollDice 6 wonBoard)) = Some yellow
  /\ posOf (state_of (onRollDice 6 wonBoard)) red 0 = Some Base
  /\ posOf (state_of (onTokenClick red 0 (state_of (onRollDice 6 wonBoard)))) red 0
     = Some (Track 0).
Proof.
  split; [reflexivity|]. split; [reflexivity|]. split; [reflexivity|].
  split; [|do 4 (split; [vm_compute; reflexivity|]); vm_compute; reflexivity].
  intros H. apply (f_equal (fun o => diceRoll (state_of o))) in H.
  vm_compute in H. discriminate H.
Qed.

(** [checkWin] disables the roll button when it sets the winner, and
    [finalizeMove] has cleared the pending roll just before. *)
Lemma winning_move_disables_rolls color slot startPos dice st :
  winner (moved color slot startPos dice st) <> winner st ->
  winner (moved color slot startPos dice st) = Some color
  /\ rollBtnDisabled (moved color slot startPos dice st) = true
  /\ diceRoll (moved color slot startPos dice st) = None.
Proof.
  intros Hw. destruct (moved_turn color slot startPos dice st) as (_ & Hd & _).
  split; [|split; [|exact Hd]]; revert Hw; unfold moved, checkWinState;
    destruct (forallb _ _); simpl; try reflexivity; intros Hw; exfalso; apply Hw;
    unfold finalizeState; destruct (dice =? 6); simpl;
    apply (animateSteps_fields color slot (movePath color startPos dice)
             (set_isRolling true st)).
Qed.

(** C7 (amended): in every state where the winner is set, the roll button is
    disabled and no roll is pending, as [checkWin] and [finalizeMove] leave
    it, a click on the roll button and a click on a token make no state
    change; so no token moves, no roll becomes pending and the winner stays
    the same whatever is clicked afterwards. *)
Theorem C7_clicks_after_win st :
  winner st <> None -> rollBtnDisabled st = true -> diceRoll st = None ->
  (forall e, isClick e -> handle e st = Done st)
  /\ (forall es, Forall isClick es -> run es st = st).
Proof.
  intros Hw Hb Hd.
  assert (Hone : forall e, isClick e -> handle e st = Done st).
  { intros [roll|c i|] He; simpl.
    - rewrite Hb. reflexivity.
    - unfold onTokenClick. destruct (bool_decide _); [reflexivity|].
      destruct (isRolling st); [reflexivity|]. rewrite Hd. reflexivity.
    - destruct He. }
  split; [exact Hone|].
  intros es Hes. induction Hes as [|e es He Hes IH]; [reflexivity|].
  simpl. rewrite (Hone e He). exact IH.
Qed.

Lemma C7_clicks_after_win_witness :
  winner wonBoard <> None /\ rollBtnDisabled wonBoard = true /\ diceRoll wonBoard = None
  /\ handle (ClickRoll 3) wonBoard = Done wonBoard
  /\ handle (ClickToken yellow 3) wonBoard = Done wonBoard.
Proof.
  split; [discriminate|]. split; [reflexivity|]. split; [reflexivity|].
  destruct (C7_clicks_after_win wonBoard ltac:(discriminate) eq_refl eq_refl) as [H _].
  split; apply H; exact I.
Defined.

(** * Further properties of the rules *)

(** ** Which tokens may move *)

Lemma canAnyTokenMove_spec st c dice :
  canAnyTokenMove st c dice = true
  <-> exists k p, (k < TOKEN_COUNT)%nat /\ posOf st c k = Some p
                  /\ canMoveToken st c p dice = true.
Proof.
  unfold canAnyTokenMove, posOf.
  rewrite orb_true_iff, andb_true_iff, !existsb_exists. split.
  - intros [[Hd [k [Hk Hb]]]|[k [Hk Hb]]]; apply in_seq in Hk.
    + apply andb_true_iff in Hb as [Hp Hfree]. apply bool_decide_eq_true in Hp.
      exists k, (-1). split; [lia|]. split; [exact Hp|].
      unfold canMoveToken. simpl. rewrite Hd, Hfree. reflexivity.
    + destruct (tokens st c !! k) as [p|] eqn:Hp; [|discriminate].
      destruct (p =? -1); [discriminate|].
      exists k, p. split; [lia|]. split; [exact Hp|exact Hb].
  - intros (k & p & Hk & Hp & Hc).
    assert (Hin : In k (seq 0 TOKEN_COUNT)) by (apply in_seq; lia).
    destruct (Z.eqb_spec p (-1)) as [->|Hne].
    + left. unfold canMoveToken in Hc. simpl in Hc.
      destruct (dice =? 6); [|discriminate]. simpl in Hc. split; [reflexivity|].
      exists k. split; [exact Hin|].
      rewrite (bool_decide_eq_true_2 _ Hp). simpl.
      destruct (negb _); [reflexivity|discriminate].
    + right. exists k. split; [exact Hin|]. rewrite Hp.
      destruct (Z.eqb_spec p (-1)); [contradiction|exact Hc].
Qed.

(** X1: [canAnyTokenMove] holds exactly when one of the colour's four token
    slots carries a token for which [canMoveToken] holds with that dice
    value. *)
Theorem X1_canAnyTokenMove_iff st c dice :
  canAnyTokenMove st c dice = true
  <-> exists k p, (k < TOKEN_COUNT)%nat /\ posOf st c k = Some p
                  /\ canMoveToken st c p dice = true.
Proof. apply canAnyTokenMove_spec. Qed.

(** ** Leaving the base *)

Lemma canMoveToken_base st c dice :
  canMoveToken st c Base dice = true
  <-> dice = 6 /\ ~ holdsTokenOf st c (START_INDICES c).
Proof.
  unfold canMoveToken, Base. simpl.
  rewrite <- isOccupiedByPlayer_free.
  destruct (Z.eqb_spec dice 6); destruct (isOccupiedByPlayer _ _ _); simpl;
    split; try discriminate; try tauto; intros [? ?]; congruence.
Qed.

(** X2: a token in its base may move exactly when the dice shows 6 and the
    colour's start square holds no token of the same colour (tokens of other
    colours there do not matter).  [moveToken] then puts it on the start
    square, draws it there once and leaves the turn with the same player;
    otherwise it throws, with one message for the dice and one for the
    occupied square, and changes nothing. *)
Theorem X2_leaving_base st c slot dice :
  posOf st c slot = Some Base ->
  (canMoveToken st c Base dice = true
     <-> dice = 6 /\ ~ holdsTokenOf st c (START_INDICES c))
  /\ (dice <> 6 ->
        moveToken c slot dice None st
        = Thrown (Err "Cannot move token out of base without a 6") st)
  /\ (dice = 6 -> holdsTokenOf st c (START_INDICES c) ->
        moveToken c slot dice None st
        = Thrown (Err "Start square occupied by own token") st)
  /\ (dice = 6 -> ~ holdsTokenOf st c (START_INDICES c) ->
        exists st',
          moveToken c slot dice None st = Done st'
          /\ posOf st' c slot = Some (Track (START_INDICES c))
          /\ frames st' = frames st ++ [(c, slot, Track (START_INDICES c))]
          /\ currentPlayerIndex st' = currentPlayerIndex st
          /\ diceRoll st' = None).
Proof.
  intros Hs. split; [apply canMoveToken_base|].
  unfold posOf, Base in Hs. rewrite moveToken_cases, Hs. simpl.
  split; [|split].
  - intros Hd. destruct (Z.eqb_spec dice 6); [contradiction|reflexivity].
  - intros -> Hocc. apply isOccupiedByPlayer_spec in Hocc. simpl. rewrite Hocc. reflexivity.
  - intros -> Hfree. apply isOccupiedByPlayer_free in Hfree. simpl. rewrite Hfree.
    exists (moved c slot (-1) 6 st). split; [reflexivity|].
    split; [rewrite moved_posOf_same by exact Hs; reflexivity|].
    split; [rewrite moved_frames; reflexivity|].
    destruct (moved_turn c slot (-1) 6 st) as (Hp & Hd & _). split; assumption.
Qed.

Lemma X2_leaving_base_witness :
  posOf (board 1 (Some 6) [Track 13; Base; Base; Base] inBase inBase inBase) blue 0 = Some Base
  /\ exists st',
       moveToken blue 0 6 None
         (board 1 (Some 6) [Track 13; Base; Base; Base] inBase inBase inBase) = Done st'
       /\ posOf st' blue 0 = Some (Track 13)
       /\ posOf st' red 0 = Some (Track 13).
Proof.
  split; [reflexivity|].
  destruct (X2_leaving_base
              (board 1 (Some 6) [Track 13; Base; Base; Base] inBase inBase inBase)
              blue 0%nat 6 eq_refl) as (_ & _ & _ & H).
  destruct H as (st' & Hm & Hp & _).
  - reflexivity.
  - intros [k [_ Hk]]. destruct k as [|[|[|[|k]]]]; discriminate Hk.
  - exists st'. split; [exact Hm|]. split; [exact Hp|].
    rewrite moveToken_cases in Hm. simpl in Hm. inversion Hm; subst. reflexivity.
Defined.

(** ** In the home lane *)

Lemma canMoveToken_lane st c p dice :
  100 <= p ->
  canMoveToken st c p dice = true
  <-> p - 100 + dice <= 5 /\ ~ holdsTokenOf st c (p + dice).
Proof.
  intros Hp. unfold canMoveToken.
  destruct (Z.eqb_spec p (-1)); [lia|].
  destruct (Z.ltb_spec p 52); [lia|]. rewrite andb_false_r.
  destruct (Z.leb_spec 100 p); [|lia].
  replace (100 + (p - 100 + dice)) with (p + dice) by lia.
  rewrite <- isOccupiedByPlayer_free.
  destruct (Z.leb_spec 6 (p - 100 + dice)).
  - split; [discriminate|lia].
  - destruct (isOccupiedByPlayer st c (p + dice)); split; try discriminate; try tauto.
    + intros [_ ?]. congruence.
    + intros _. split; [lia|reflexivity].
Qed.

Lemma destination_lane c p dice :
  100 <= p -> 1 <= dice -> destination c p dice = p + dice.
Proof.
  intros Hp Hd. unfold destination, movePath.
  destruct (Z.eqb_spec p (-1)); [lia|].
  destruct (Z.ltb_spec p 52); [lia|]. rewrite andb_false_r.
  destruct (Z.leb_spec 100 p); [|lia].
  rewrite pushRange_last by lia. lia.
Qed.

(** X3: a token on a home-lane position [p >= 100] may move exactly when
    its lane index plus the dice stays within 5 and the target square holds
    no token of the same colour; a legal move with a dice of at least 1 puts
    it on [p + dice]. *)
Theorem X3_home_lane_rule st c slot p dice :
  posOf st c slot = Some p -> 100 <= p -> 1 <= dice ->
  (canMoveToken st c p dice = true
     <-> p - 100 + dice <= 5 /\ ~ holdsTokenOf st c (p + dice))
  /\ (canMoveToken st c p dice = true ->
        exists st', moveToken c slot dice None st = Done st'
                    /\ posOf st' c slot = Some (p + dice)).
Proof.
  intros Hs Hp Hd. split; [apply canMoveToken_lane; exact Hp|].
  intros Hc. exists (moved c slot p dice st).
  split; [apply moveToken_legal; assumption|].
  rewrite moved_posOf_same by exact Hs. f_equal. apply destination_lane; assumption.
Qed.

Lemma X3_home_lane_rule_witness :
  posOf (board 2 (Some 3) inBase inBase [Home 1; Track 30; Base; Base] inBase) green 0
  = Some (Home 1)
  /\ 100 <= Home 1 /\ 1 <= 3
  /\ exists st',
       moveToken green 0 3 None
         (board 2 (Some 3) inBase inBase [Home 1; Track 30; Base; Base] inBase) = Done st'
       /\ posOf st' green 0 = Some (Home 4).
Proof.
  split; [reflexivity|]. split; [unfold Home; lia|]. split; [lia|].
  destruct (X3_home_lane_rule
              (board 2 (Some 3) inBase inBase [Home 1; Track 30; Base; Base] inBase)
              green 0%nat (Home 1) 3 eq_refl ltac:(unfold Home; lia) ltac:(lia))
    as [_ H].
  apply H. reflexivity.
Defined.

(** ** Tokens that cannot move *)

(** X4: with a dice of at least 1 a finished token (position 105) is never
    movable, and neither is a token whose position lies outside the encoding
    (below -1, or from 52 to 99); on a position outside the encoding
    [moveToken] returns without changing the state. *)
Theorem X4_finished_or_off_board st c slot p dice :
  posOf st c slot = Some p ->
  (p = Finished -> 1 <= dice -> canMoveToken st c p dice = false)
  /\ (p < -1 \/ 52 <= p < 100 ->
        canMoveToken st c p dice = false
        /\ moveToken c slot dice None st = Done st).
Proof.
  intros Hs. split.
  - intros -> Hd. destruct (canMoveToken st c Finished dice) eqn:Hc; [|reflexivity].
    apply canMoveToken_lane in Hc; unfold Finished, Home in *; lia.
  - intros Hp. unfold posOf in Hs. rewrite moveToken_cases, Hs.
    unfold canMoveToken, onBoard.
    destruct (Z.eqb_spec p (-1)); [lia|].
    destruct (Z.leb_spec 100 p); [lia|].
    destruct (Z.leb_spec 0 p); destruct (Z.ltb_spec p 52); try lia; split; reflexivity.
Qed.

Lemma X4_finished_or_off_board_witness :
  posOf lastStepBoard yellow 0 = Some Finished
  /\ canMoveToken lastStepBoard yellow Finished 1 = false.
Proof.
  split; [reflexivity|].
  destruct (X4_finished_or_off_board lastStepBoard yellow 0%nat Finished 1 eq_refl)
    as [H _].
  apply H; [reflexivity | lia].
Defined.

(** ** One square per pip *)

Lemma pushRange_length lo hi f : length (pushRange lo hi f) = Z.to_nat (hi - lo + 1).
Proof. unfold pushRange. rewrite length_map, length_seq. reflexivity. Qed.

Lemma movePath_length c p dice :
  0 <= p < 52 \/ 100 <= p -> 0 <= dice ->
  Z.of_nat (length (movePath c p dice)) = dice.
Proof.
  intros Hp Hd. unfold movePath.
  destruct (Z.eqb_spec p (-1)); [lia|].
  destruct (Z.leb_spec 0 p); destruct (Z.ltb_spec p 52); simpl; try lia.
  - assert (Hrem : 0 <= Z.rem (HOME_ENTRY_INDICES c - p + 52) 52 < 52).
    { pose proof (homeEntry_range c). apply Z.rem_bound_pos; lia. }
    destruct (Z.leb_spec dice (Z.rem (HOME_ENTRY_INDICES c - p + 52) 52)).
    + rewrite pushRange_length. lia.
    + rewrite length_app, !pushRange_length. lia.
  - destruct (Z.leb_spec 100 p); [|lia]. rewrite pushRange_length. lia.
Qed.

(** X5: a move of a token that is on the track or in its lane is drawn on
    exactly [dice] squares, whether it stays on the track, turns into the
    lane or runs inside it. *)
Theorem X5_one_frame_per_pip st c slot p dice :
  posOf st c slot = Some p -> 0 <= p < 52 \/ 100 <= p -> 0 <= dice ->
  exists st',
    moveToken c slot dice None st = Done st'
    /\ Z.of_nat (length (frames st')) = Z.of_nat (length (frames st)) + dice.
Proof.
  intros Hs Hp Hd. exists (moved c slot p dice st). split.
  - unfold posOf in Hs. rewrite moveToken_cases, Hs. unfold onBoard.
    destruct (Z.eqb_spec p (-1)); [lia|].
    destruct (Z.leb_spec 0 p); destruct (Z.ltb_spec p 52);
      destruct (Z.leb_spec 100 p); try lia; reflexivity.
  - rewrite moved_frames, length_app, length_map, Nat2Z.inj_add.
    rewrite movePath_length by assumption. reflexivity.
Qed.

Lemma X5_one_frame_per_pip_witness :
  posOf (board 0 (Some 6) [47; Base; Base; Base] inBase inBase inBase) red 0 = Some 47
  /\ (0 <= 47 < 52 \/ 100 <= 47) /\ 0 <= 6
  /\ exists st',
       moveToken red 0 6 None (board 0 (Some 6) [47; Base; Base; Base] inBase inBase inBase)
       = Done st'
       /\ Z.of_nat (length (frames st')) = 0 + 6.
Proof.
  split; [reflexivity|]. split; [lia|]. split; [lia|].
  apply (X5_one_frame_per_pip
           (board 0 (Some 6) [47; Base; Base; Base] inBase inBase inBase) red 0%nat 47 6
           eq_refl); lia.
Defined.

(** ** Progress along the route *)

Lemma progress_step c p dice :
  0 <= p < 52 \/ 100 <= p <= 105 ->
  (p < 52 -> progress c p <= 50) ->
  1 <= dice <= 6 ->
  progress c (destination c p dice) = progress c p + dice
  /\ (destination c p dice < 52 -> progress c (destination c p dice) <= 50).
Proof.
  intros Hp Hroute Hd. unfold destination, movePath, progress in *.
  destruct (Z.eqb_spec p (-1)); [lia|].
  destruct (Z.leb_spec 0 p); [|lia].
  destruct (Z.ltb_spec p 52) as [Hlt|Hge]; simpl.
  - specialize (Hroute Hlt).
    assert (Hdist : Z.rem (HOME_ENTRY_INDICES c - p + 52) 52
                    = 50 - (p - START_INDICES c) mod 52).
    { rewrite Z.rem_mod_nonneg by (pose proof (homeEntry_range c); lia).
      destruct c; simpl in *; Z.div_mod_to_equations; lia. }
    rewrite Hdist.
    destruct (Z.leb_spec dice (50 - (p - START_INDICES c) mod 52)) as [Hle|Hgt].
    + rewrite pushRange_last by lia. rewrite Z.rem_mod_nonneg by lia.
      assert (H52 : (p + dice) mod 52 < 52) by (apply Z.mod_pos_bound; lia).
      destruct (Z.ltb_spec ((p + dice) mod 52) 52); [|lia].
      assert (((p + dice) mod 52 - START_INDICES c) mod 52
              = (p - START_INDICES c) mod 52 + dice)
        by (destruct c; simpl in *; Z.div_mod_to_equations; lia).
      lia.
    + rewrite last_app, pushRange_last by lia.
      destruct (Z.ltb_spec (100 + (dice - (50 - (p - START_INDICES c) mod 52) - 1)) 52);
        [pose proof (Z.mod_pos_bound (p - START_INDICES c) 52); lia|].
      lia.
  - destruct (Z.leb_spec 100 p); [|lia].
    rewrite pushRange_last by lia.
    destruct (Z.ltb_spec (100 + (p - 100) + dice) 52); lia.
Qed.

(** X6: measured in steps from the colour's start square (the home lane
    counting on from 51), every move of a token that is on its route advances
    it by exactly the dice value; the finishing square is step 56. *)
Theorem X6_move_advances_by_dice st c slot p dice :
  posOf st c slot = Some p ->
  0 <= p < 52 \/ 100 <= p <= 105 ->
  (p < 52 -> progress c p <= 50) ->
  1 <= dice <= 6 ->
  progress c Finished = 56
  /\ exists st' q,
       moveToken c slot dice None st = Done st'
       /\ posOf st' c slot = Some q
       /\ progress c q = progress c p + dice.
Proof.
  intros Hs Hp Hroute Hd. split; [reflexivity|].
  exists (moved c slot p dice st), (destination c p dice). split; [|split].
  - unfold posOf in Hs. rewrite moveToken_cases, Hs. unfold onBoard.
    destruct (Z.eqb_spec p (-1)); [lia|].
    destruct (Z.leb_spec 0 p); destruct (Z.ltb_spec p 52);
      destruct (Z.leb_spec 100 p); try lia; reflexivity.
  - apply moved_posOf_same. exact Hs.
  - apply progress_step; assumption.
Qed.

Lemma X6_move_advances_by_dice_witness :
  posOf (board 1 (Some 4) inBase [Track 9; Base; Base; Base] inBase inBase) blue 0
  = Some (Track 9)
  /\ progress blue (Track 9) = 48
  /\ exists st' q,
       moveToken blue 0 4 None
         (board 1 (Some 4) inBase [Track 9; Base; Base; Base] inBase inBase) = Done st'
       /\ posOf st' blue 0 = Some q
       /\ progress blue q = 48 + 4.
Proof.
  split; [reflexivity|]. split; [reflexivity|].
  apply (X6_move_advances_by_dice
           (board 1 (Some 4) inBase [Track 9; Base; Base; Base] inBase inBase)
           blue 0%nat (Track 9) 4 eq_refl);
    [unfold Track; lia | intros _; vm_compute; discriminate | lia].
Defined.

(** ** Invariants of play *)

Lemma currentColor_in_range st :
  0 <= currentPlayerIndex st < 4 -> exists c, currentColor st = Some c.
Proof.
  intros H. unfold currentColor.
  assert (Hc : currentPlayerIndex st = 0 \/ currentPlayerIndex st = 1
               \/ currentPlayerIndex st = 2 \/ currentPlayerIndex st = 3) by lia.
  destruct Hc as [-> |[-> |[-> | ->]]]; simpl; eauto.
Qed.

Lemma getNextPlayerIndex_range st :
  0 <= currentPlayerIndex st < 4 -> 0 <= getNextPlayerIndex st < 4.
Proof.
  intros H. rewrite getNextPlayerIndex_mod by lia. apply Z.mod_pos_bound. lia.
Qed.

Lemma canAnyTokenMove_same_tokens st st' c dice :
  tokens st' = tokens st -> canAnyTokenMove st' c dice = canAnyTokenMove st c dice.
Proof.
  intros H. unfold canAnyTokenMove, canMoveToken, isOccupiedByPlayer. rewrite H. reflexivity.
Qed.

Lemma currentColor_same_index st st' :
  currentPlayerIndex st' = currentPlayerIndex st -> currentColor st' = currentColor st.
Proof. intros H. unfold currentColor. rewrite H. reflexivity. Qed.

(** The fields a move leaves when it does not end the game. *)
Lemma finalizeState_idle dice st :
  rollCount (finalizeState dice st) = 0
  /\ rollBtnDisabled (finalizeState dice st) = false
  /\ passTimers (finalizeState dice st) = passTimers st
  /\ winner (finalizeState dice st) = winner st.
Proof. unfold finalizeState. destruct (dice =? 6); repeat split. Qed.

Lemma checkWinState_idle c st :
  winner (checkWinState c st) = None ->
  checkWinState c st = st.
Proof. unfold checkWinState. destruct (forallb _ _); [discriminate|reflexivity]. Qed.

Lemma gameInv_finalized dice st s :
  gameInv st ->
  tokens s = tokens st -> winner s = winner st ->
  currentPlayerIndex s = currentPlayerIndex st -> passTimers s = [] ->
  forall o, gameInv (state_of (checkWin o (finalizeState dice s))).
Proof.
  intros (Hplay & Hvalid & Hroute & Hidx & Hroll & Hturn) Ht Hw Hi Hp o.
  assert (Hplay' : playInv (finalizeState dice s)).
  { apply (playInv_same_tokens st); [|rewrite <- Hw|exact Hplay].
    - rewrite finalizeState_tokens. exact Ht.
    - apply finalizeState_idle. }
  assert (Hfin : state_of (checkWin o (finalizeState dice s)) = finalizeState dice s).
  { destruct o as [c|]; [|reflexivity]. rewrite checkWin_Some. simpl.
    apply checkWinState_idle.
    destruct Hplay' as (Hwf & Hsole & Hnone).
    apply checkWinState_no_winner; assumption. }
  rewrite Hfin. split; [exact Hplay'|].
  destruct (finalizeState_idle dice s) as (Hrc & Hbtn & Hpt & _).
  split; [|split; [|split; [|split]]].
  - unfold allValid, posOf. rewrite finalizeState_tokens, Ht. exact Hvalid.
  - unfold onRoute, posOf. rewrite finalizeState_tokens, Ht. exact Hroute.
  - rewrite finalizeState_player. destruct (dice =? 6); [lia|].
    assert (Hn : getNextPlayerIndex s = getNextPlayerIndex st)
      by (unfold getNextPlayerIndex; rewrite Hi; reflexivity).
    rewrite Hn. apply getNextPlayerIndex_range. exact Hidx.
  - apply finalizeState_isRolling.
  - unfold turnCoherent. rewrite finalizeState_diceRoll.
    rewrite Hrc, Hbtn, Hpt, Hp. repeat split.
Qed.

Lemma allValid_moved c slot p dice st :
  posOf st c slot = Some p -> canMoveToken st c p dice = true ->
  allValid st -> allValid (moved c slot p dice st).
Proof.
  intros Hs Hc Hall c' k q Hq.
  destruct (decide ((c', k) = (c, slot))) as [Heq|Hne].
  - inversion Heq; subst. rewrite moved_posOf_same in Hq by exact Hs.
    inversion Hq; subst. eapply destination_valid; [|exact Hc]. eapply Hall; exact Hs.
  - rewrite moved_posOf_other in Hq by assumption. eapply Hall; exact Hq.
Qed.

Lemma onRoute_moved c slot p dice st :
  posOf st c slot = Some p -> canMoveToken st c p dice = true -> 1 <= dice <= 6 ->
  allValid st -> onRoute st -> onRoute (moved c slot p dice st).
Proof.
  intros Hs Hc Hd Hall Hroute c' k q Hq Hrange.
  destruct (decide ((c', k) = (c, slot))) as [Heq|Hne].
  - inversion Heq; subst. rewrite moved_posOf_same in Hq by exact Hs.
    inversion Hq; subst.
    destruct (Hall c slot p Hs) as [-> |Hp].
    + unfold destination, movePath, Base, progress. simpl.
      pose proof (startIndex_range c).
      destruct (Z.ltb_spec (START_INDICES c) 52); [|lia].
      rewrite Z.sub_diag, Z.mod_0_l; lia.
    + apply progress_step; [exact Hp | | exact Hd | lia].
      intros Hlt. apply (Hroute c slot p Hs). destruct Hp; lia.
  - rewrite moved_posOf_other in Hq by assumption. eapply Hroute; eassumption.
Qed.

Lemma gameInv_initial : gameInv initialState.
Proof.
  split; [apply playInv_initial|]. split; [|split; [|split; [|split]]].
  - intros c k p Hp. left. unfold posOf in Hp. simpl in Hp.
    destruct k as [|[|[|[|k]]]]; inversion Hp; reflexivity.
  - intros c k p Hp Hr. unfold posOf in Hp. simpl in Hp.
    destruct k as [|[|[|[|k]]]]; inversion Hp; subst; lia.
  - simpl. lia.
  - reflexivity.
  - repeat split.
Qed.

Lemma gameInv_step e st :
  valid_event e -> gameInv st -> gameInv (state_of (handle e st)).
Proof.
  intros Hv Hinv.
  pose proof Hinv as (Hplay & Hvalid & Hroute & Hidx & Hroll & Hturn).
  destruct e as [roll|color index|]; simpl.
  - (* a click on the roll button *)
    destruct (rollBtnDisabled st) eqn:Hbtn; [exact Hinv|].
    unfold turnCoherent in Hturn.
    destruct (diceRoll st) as [d|] eqn:Hdice;
      [destruct Hturn as (_ & _ & Hb & _); congruence|].
    destruct Hturn as (Hrc & _ & Hpt).
    unfold onRollDice. rewrite Hroll, Hdice. simpl.
    destruct (currentColor_in_range st Hidx) as [c Hc].
    assert (Hc' : currentColor (set_rollCount (rollCount st + 1) (set_diceRoll (Some roll) st))
                  = Some c) by exact Hc.
    rewrite Hc'. simpl.
    set (s1 := set_rollCount (rollCount st + 1) (set_diceRoll (Some roll) st)).
    assert (Hany : canAnyTokenMove s1 c roll = canAnyTokenMove st c roll)
      by (apply canAnyTokenMove_same_tokens; reflexivity).
    rewrite Hany. simpl in Hv.
    destruct (canAnyTokenMove st c roll) eqn:Hm; simpl;
      (split; [apply (playInv_same_tokens st); [reflexivity|reflexivity|exact Hplay]|]);
      (split; [exact Hvalid|]); (split; [exact Hroute|]);
      (split; [exact Hidx|]); (split; [exact Hroll|]);
      unfold turnCoherent; simpl;
      (split; [exact Hv|]); (split; [lia|]); (split; [reflexivity|]);
      exists c; (split; [exact Hc|]);
      rewrite (canAnyTokenMove_same_tokens st) by reflexivity; rewrite Hm.
    + exact Hpt.
    + rewrite Hpt. reflexivity.
  - (* a click on a token *)
    unfold onTokenClick.
    destruct (bool_decide_reflect (currentColor st <> Some color)) as [|Hcur]; [exact Hinv|].
    rewrite Hroll.
    destruct (diceRoll st) as [dice|] eqn:Hdice; [|exact Hinv].
    destruct (tokens st color !! index) as [pos|] eqn:Hs; [|exact Hinv].
    destruct (canMoveToken st color pos dice) eqn:Hc; [|exact Hinv]. simpl.
    rewrite (moveToken_legal color index pos dice st Hs Hc). simpl.
    unfold turnCoherent in Hturn. rewrite Hdice in Hturn.
    destruct Hturn as (Hd & _ & _ & c & Hcc & Hpt).
    assert (c = color)
      by (destruct (decide (currentColor st = Some color)) as [He|Hn];
          [congruence | exfalso; exact (Hcur Hn)]).
    subst c.
    assert (Hany : canAnyTokenMove st color dice = true).
    { apply canAnyTokenMove_spec. exists index, pos. split; [exact Hv|]. split; assumption. }
    rewrite Hany in Hpt.
    set (s := animateSteps color index (movePath color pos dice) (set_isRolling true st)).
    destruct (animateSteps_fields color index (movePath color pos dice) (set_isRolling true st))
      as (Hf1 & _ & _ & _ & Hf5 & _ & Hf7). fold s in Hf1, Hf5, Hf7.
    assert (Hplay' : playInv (moved color index pos dice st))
      by (apply playInv_moved; assumption).
    assert (Hsame : moved color index pos dice st = finalizeState dice s).
    { unfold moved. fold s. apply checkWinState_idle. apply Hplay'. }
    split; [exact Hplay'|]. split; [apply allValid_moved; assumption|].
    split; [apply onRoute_moved; assumption|].
    rewrite Hsame. destruct (finalizeState_idle dice s) as (Hrc & Hbtn & Hpt' & _).
    split; [|split].
    + rewrite finalizeState_player. destruct (dice =? 6).
      * rewrite Hf1. exact Hidx.
      * assert (Hn : getNextPlayerIndex s = getNextPlayerIndex st)
          by (unfold getNextPlayerIndex; rewrite Hf1; reflexivity).
        rewrite Hn. apply getNextPlayerIndex_range. exact Hidx.
    + apply finalizeState_isRolling.
    + unfold turnCoherent. rewrite finalizeState_diceRoll.
      rewrite Hrc, Hbtn, Hpt', Hf7. simpl. rewrite Hpt. repeat split.
  - (* the pass timer *)
    destruct (passTimers st) as [|roll rest] eqn:Hpt; [exact Hinv|].
    unfold passTurn. rewrite finalizeMove_no_callback.
    apply (gameInv_finalized roll st); try reflexivity; [exact Hinv|].
    simpl. unfold turnCoherent in Hturn.
    destruct (diceRoll st) as [d|].
    + destruct Hturn as (_ & _ & _ & c & _ & Hp). rewrite Hpt in Hp.
      destruct (canAnyTokenMove st c d); inversion Hp. reflexivity.
    + destruct Hturn as (_ & _ & Hp). congruence.
Qed.

Lemma checkWin_diceRoll o st : diceRoll (state_of (checkWin o st)) = diceRoll st.
Proof.
  destruct o as [c|]; [|reflexivity]. rewrite checkWin_Some. simpl.
  apply checkWinState_turn.
Qed.

(** ** [killTokensAt] and [getTokensAtPosition] *)

(** X12: called with a track square that is not a safe spot,
    [killTokensAt] sends to the base every token of a colour other than
    [exceptPlayer] standing on that square and leaves every other token,
    those of [exceptPlayer] on the square included, where it is. *)
Theorem X12_killTokensAt_captures st p except c k :
  isSafeSpot (Some p) = false -> p < 100 ->
  (k < TOKEN_COUNT)%nat -> is_Some (posOf st c k) ->
  posOf (killTokensAt (Some p) except st) c k
  = if bool_decide (c <> except /\ posOf st c k = Some p) then Some Base else posOf st c k.
Proof. apply killTokensAt_captures. Qed.

Lemma X12_killTokensAt_captures_witness :
  isSafeSpot (Some 1) = false /\ 1 < 100 /\ (0 < TOKEN_COUNT)%nat
  /\ is_Some (posOf captureBoard red 0)
  /\ posOf (killTokensAt (Some 1) blue captureBoard) red 0 = Some Base.
Proof.
  split; [reflexivity|]. split; [lia|]. split; [unfold TOKEN_COUNT; lia|].
  split; [eexists; reflexivity|].
  rewrite (X12_killTokensAt_captures captureBoard 1 blue red 0%nat eq_refl ltac:(lia)
             ltac:(unfold TOKEN_COUNT; lia) (ex_intro _ _ eq_refl)).
  reflexivity.
Defined.

Lemma sendToBase_frame (l : list (Color * nat)) st :
  let st' := fold_left (fun s tk => set_pos (fst tk) (snd tk) (-1) s) l st in
  (forall c, length (tokens st' c) = length (tokens st c))
  /\ (forall c, ~ In c (map fst l) -> tokens st' c = tokens st c)
  /\ (forall c k, posOf st' c k = posOf st c k \/ posOf st' c k = Some Base).
Proof.
  revert st. induction l as [|[c' k'] l IH]; intros st; simpl.
  - repeat split; auto.
  - destruct (IH (set_pos c' k' (-1) st)) as (Hlen & Hother & Hpos).
    split; [|split].
    + intros c. rewrite Hlen.
      destruct (decide (c = c')) as [->|Hne].
      * rewrite set_pos_tokens_same. apply length_insert.
      * rewrite set_pos_tokens_other by assumption. reflexivity.
    + intros c Hnin. rewrite Hother by tauto.
      apply set_pos_tokens_other. intros ->. tauto.
    + intros c k. destruct (Hpos c k) as [Heq|Hb]; [|right; exact Hb].
      rewrite Heq. unfold posOf.
      destruct (decide (c = c')) as [->|Hne].
      * rewrite set_pos_tokens_same.
        destruct (decide (k = k')) as [->|Hk].
        -- destruct (tokens st c' !! k') as [q|] eqn:Hq.
           ++ right. apply list_lookup_insert_eq, lookup_lt_is_Some. rewrite Hq. eauto.
           ++ left. rewrite list_insert_ge by (apply lookup_ge_None; exact Hq). exact Hq.
        -- left. apply list_lookup_insert_ne. congruence.
      * left. rewrite set_pos_tokens_other by assumption. reflexivity.
Qed.

Lemma getTokensAtPosition_colors st pos except :
  ~ In except (map fst (getTokensAtPosition st pos except)).
Proof.
  intros Hin. apply in_map_iff in Hin. destruct Hin as [[c k] [Hc Hin]]. simpl in Hc. subst c.
  unfold getTokensAtPosition in Hin. apply in_flat_map in Hin.
  destruct Hin as [pc [_ Hin]].
  destruct (bool_decide_reflect (pc = except)) as [|Hne]; [destruct Hin|].
  apply in_flat_map in Hin. destruct Hin as [i [_ Hin]].
  destruct pos as [p|]; [|destruct Hin].
  destruct (bool_decide _); [|destruct Hin].
  destruct Hin as [Heq|[]]. inversion Heq. contradiction.
Qed.

(** X13: whatever square and state it is given, [killTokensAt] never
    changes the tokens of [exceptPlayer], never changes the number of tokens
    of a colour, and a position it changes becomes the base; on [undefined],
    on a safe spot (every colour's start square is one) and on a home-lane
    position it changes nothing at all. *)
Theorem X13_killTokensAt_frame st pos except :
  tokens (killTokensAt pos except st) except = tokens st except
  /\ (forall c, length (tokens (killTokensAt pos except st) c) = length (tokens st c))
  /\ (forall c k, posOf (killTokensAt pos except st) c k = posOf st c k
                  \/ posOf (killTokensAt pos except st) c k = Some Base)
  /\ (pos = None \/ isSafeSpot pos = true \/ isHomePosition pos = true ->
        killTokensAt pos except st = st)
  /\ (forall c, killTokensAt (Some (START_INDICES c)) except st = st).
Proof.
  assert (Hnoop : pos = None \/ isSafeSpot pos = true \/ isHomePosition pos = true ->
                  killTokensAt pos except st = st).
  { intros [->|H]; [apply killTokensAt_undefined | apply killTokensAt_safe_or_home, H]. }
  assert (Hfr : (forall c, length (tokens (killTokensAt pos except st) c) = length (tokens st c))
                /\ (forall c, ~ In c (map fst (getTokensAtPosition st pos except)) ->
                       tokens (killTokensAt pos except st) c = tokens st c)
                /\ (forall c k, posOf (killTokensAt pos except st) c k = posOf st c k
                                \/ posOf (killTokensAt pos except st) c k = Some Base)).
  { unfold killTokensAt. destruct (isSafeSpot pos || isHomePosition pos).
    - repeat split; auto.
    - apply sendToBase_frame. }
  destruct Hfr as (Hlen & Hother & Hpos).
  split; [apply Hother, getTokensAtPosition_colors|].
  split; [exact Hlen|]. split; [exact Hpos|]. split; [exact Hnoop|].
  intros c. apply killTokensAt_safe_or_home. left. destruct c; reflexivity.
Qed.

Lemma X13_killTokensAt_frame_witness :
  (isSafeSpot (Some 8) = true)
  /\ killTokensAt (Some 8) red
       (board 0 None [Track 8; Base; Base; Base] [Track 8; Base; Base; Base] inBase inBase)
     = board 0 None [Track 8; Base; Base; Base] [Track 8; Base; Base; Base] inBase inBase.
Proof.
  split; [reflexivity|].
  apply (X13_killTokensAt_frame
           (board 0 None [Track 8; Base; Base; Base] [Track 8; Base; Base; Base] inBase inBase)
           (Some 8) red).
  right. left. reflexivity.
Defined.

(** ** The step animation *)

(** X14: for an existing token slot, [animateTokenMovement] draws the token
    on every step in order, leaves the token on the last step (where it was,
    when there is no step), touches no other token and no other field, and
    runs the callback on the emptied array, whatever steps it was given;
    for a slot that does not exist it throws on the first step. *)
Theorem X14_animation st color slot steps cb :
  (is_Some (posOf st color slot) ->
     exists s,
       animateTokenMovement color slot steps cb st = cb [] s
       /\ frames s = frames st ++ map (fun p => (color, slot, p)) steps
       /\ posOf s color slot
          = match list.last steps with Some p => Some p | None => posOf st color slot end
       /\ (forall c k, (c, k) <> (color, slot) -> posOf s c k = posOf st c k)
       /\ currentPlayerIndex s = currentPlayerIndex st /\ diceRoll s = diceRoll st
       /\ rollCount s = rollCount st /\ isRolling s = isRolling st
       /\ winner s = winner st)
  /\ (posOf st color slot = None -> steps <> [] ->
        animateTokenMovement color slot steps cb st = Thrown TypeError st).
Proof.
  split.
  - intros Hsome. exists (animateSteps color slot steps st).
    split; [apply animateTokenMovement_steps; exact Hsome|].
    split; [apply animateSteps_frames|]. split; [|split].
    + unfold posOf. rewrite animateSteps_tokens_same.
      destruct (list.last steps); [|reflexivity].
      apply list_lookup_insert_eq, lookup_lt_is_Some, Hsome.
    + intros c k Hne. unfold posOf. destruct (decide (c = color)) as [->|Hc].
      * rewrite animateSteps_tokens_same. destruct (list.last steps); [|reflexivity].
        apply list_lookup_insert_ne. congruence.
      * rewrite animateSteps_tokens_other by assumption. reflexivity.
    + destruct (animateSteps_fields color slot steps st) as (H1 & H2 & H3 & H4 & H5 & _).
      repeat split; assumption.
  - intros Hnone Hne. destruct steps as [|p steps]; [contradiction|].
    simpl. unfold posOf in Hnone. rewrite Hnone. reflexivity.
Qed.

Lemma X14_animation_witness :
  is_Some (posOf initialState red 0)
  /\ exists s,
       animateTokenMovement red 0 [3; 4; 5] (fun rest s => Done (set_passTimers rest s))
         initialState = Done s
       /\ passTimers s = []
       /\ posOf s red 0 = Some 5.
Proof.
  split; [eexists; reflexivity|].
  destruct (X14_animation initialState red 0%nat [3; 4; 5]
              (fun rest s => Done (set_passTimers rest s))) as [H _].
  destruct (H (ex_intro _ _ eq_refl)) as (s & Hrun & _ & Hpos & _).
  exists (set_passTimers [] s). split; [exact Hrun|]. split; [reflexivity|exact Hpos].
Defined.

(** ** Clicks *)

Lemma onTokenClick_cases st color slot p :
  tokens st color !! slot = Some p ->
  onTokenClick color slot st = Done st
  \/ exists dice,
       moveToken color slot dice None st = Done (moved color slot p dice st)
       /\ onTokenClick color slot st = moveToken color slot dice None st.
Proof.
  intros Hs. unfold onTokenClick.
  destruct (bool_decide _); [left; reflexivity|].
  destruct (isRolling st); [left; reflexivity|].
  destruct (diceRoll st) as [dice|]; [|left; reflexivity].
  rewrite Hs. destruct (canMoveToken st color p dice) eqn:Hm; [|left; reflexivity].
  right. exists dice. split; [apply moveToken_legal; assumption|reflexivity].
Qed.

(** X15: a click on a token either leaves the whole state as it is, or the
    token belongs to the current player, no move is in flight, a roll is
    pending and legal for that token, and the click carries out exactly that
    move; it throws only for a slot that does not exist. *)
Theorem X15_onTokenClick_cases st color slot :
  is_Some (posOf st color slot) ->
  onTokenClick color slot st = Done st
  \/ exists dice p,
       currentColor st = Some color /\ isRolling st = false
       /\ diceRoll st = Some dice /\ posOf st color slot = Some p
       /\ canMoveToken st color p dice = true
       /\ onTokenClick color slot st = moveToken color slot dice None st
       /\ moveToken color slot dice None st = Done (moved color slot p dice st).
Proof.
  intros [p Hs]. unfold onTokenClick.
  destruct (bool_decide_reflect (currentColor st <> Some color)) as [|Hcur]; [left; reflexivity|].
  destruct (isRolling st) eqn:Hroll; [left; reflexivity|].
  destruct (diceRoll st) as [dice|]; [|left; reflexivity].
  unfold posOf in Hs. rewrite Hs.
  destruct (canMoveToken st color p dice) eqn:Hm; [|left; reflexivity].
  right. exists dice, p. simpl.
  split; [destruct (decide (currentColor st = Some color)); [assumption|contradiction]|].
  repeat split; try reflexivity; try assumption.
  apply moveToken_legal; assumption.
Qed.

Lemma X15_onTokenClick_cases_witness :
  is_Some (posOf captureBoard red 0)
  /\ onTokenClick red 0 captureBoard = Done captureBoard.
Proof.
  split; [eexists; reflexivity|].
  destruct (X15_onTokenClick_cases captureBoard red 0%nat (ex_intro _ _ eq_refl))
    as [H|(dice & p & Hc & _)]; [exact H|].
  discriminate Hc.
Defined.

Lemma checkWinState_counters c st :
  rollCount (checkWinState c st) = rollCount st
  /\ passTimers (checkWinState c st) = passTimers st
  /\ (rollBtnDisabled (checkWinState c st) = rollBtnDisabled st
      \/ winner (checkWinState c st) = Some c).
Proof.
  unfold checkWinState. destruct (forallb _ _); simpl; repeat split; auto.
Qed.

(** X16: from a state with its player index in 0..3, no roll pending, no
    move in flight, no timer pending and the roll button enabled, a roll for
    which the current colour has no movable token followed by the pass timer
    moves no token, clears the roll and the roll counter, leaves no timer
    behind, leaves the roll button enabled unless the current colour is
    declared winner, and passes the turn: to the same player after a 6, to
    the next one in the rotation otherwise. *)
Theorem X16_roll_without_move_passes st c roll :
  0 <= currentPlayerIndex st < 4 -> currentColor st = Some c ->
  isRolling st = false -> diceRoll st = None -> passTimers st = [] ->
  rollBtnDisabled st = false ->
  canAnyTokenMove st c roll = false ->
  let st' := run [ClickRoll roll; PassTimeout] st in
  tokens st' = tokens st /\ diceRoll st' = None /\ rollCount st' = 0
  /\ passTimers st' = [] /\ isRolling st' = false
  /\ (rollBtnDisabled st' = false \/ winner st' = Some c)
  /\ currentPlayerIndex st'
     = if roll =? 6 then currentPlayerIndex st else (currentPlayerIndex st + 1) mod 4.
Proof.
  intros Hidx Hc Hroll Hd Hpt Hbtn Hm st'.
  set (s := set_passTimers []
              (set_rollBtnDisabled true
                 (set_passTimers [roll]
                    (set_rollCount (rollCount st + 1) (set_diceRoll (Some roll) st))))).
  assert (Hrun : st' = checkWinState c (finalizeState roll s)).
  { unfold st', run. simpl. rewrite Hbtn. unfold onRollDice. rewrite Hroll, Hd. simpl.
    assert (Hc' : currentColor
                    (set_rollCount (rollCount st + 1) (set_diceRoll (Some roll) st)) = Some c)
      by exact Hc.
    rewrite Hc'. rewrite (canAnyTokenMove_same_tokens st) by reflexivity.
    rewrite Hm. simpl. rewrite Hpt. simpl.
    unfold passTurn. rewrite finalizeMove_no_callback. fold s.
    assert (Hcs : currentColor s = Some c) by exact Hc.
    rewrite Hcs, checkWin_Some. reflexivity. }
  rewrite Hrun.
  destruct (checkWinState_turn c (finalizeState roll s)) as (Hp & Hdr & Hir).
  destruct (checkWinState_counters c (finalizeState roll s)) as (Hrc & Hpt' & Hb).
  destruct (finalizeState_idle roll s) as (Hrc0 & Hb0 & Hpt0 & _).
  rewrite checkWinState_tokens, finalizeState_tokens, Hdr, finalizeState_diceRoll,
    Hrc, Hrc0, Hpt', Hpt0, Hir, finalizeState_isRolling, Hp, finalizeState_player.
  split; [reflexivity|]. split; [reflexivity|]. split; [reflexivity|].
  split; [reflexivity|]. split; [reflexivity|].
  split; [destruct Hb as [Hb|Hb]; [left; rewrite Hb; exact Hb0 | right; exact Hb]|].
  destruct (roll =? 6); [reflexivity|].
  rewrite getNextPlayerIndex_mod; [reflexivity | simpl; lia].
Qed.

Lemma X16_roll_without_move_passes_witness :
  0 <= currentPlayerIndex initialState < 4 /\ currentColor initialState = Some red
  /\ canAnyTokenMove initialState red 3 = false
  /\ currentPlayerIndex (run [ClickRoll 3; PassTimeout] initialState) = 1.
Proof.
  split; [simpl; lia|]. split; [reflexivity|]. split; [reflexivity|].
  apply (X16_roll_without_move_passes initialState red 3);
    [simpl; lia | reflexivity ..].
Defined.

(** ** Tokens stay on the board *)

Lemma destination_not_base c p dice : p <> Base -> destination c p dice <> Base.
Proof.
  intros Hp. unfold destination, movePath, Base in *.
  destruct (Z.eqb_spec p (-1)); [contradiction|].
  destruct (Z.leb_spec 0 p); [destruct (Z.ltb_spec p 52)|]; simpl.
  - assert (Hrem : 0 <= Z.rem (HOME_ENTRY_INDICES c - p + 52) 52 < 52)
      by (pose proof (homeEntry_range c); apply Z.rem_bound_pos; lia).
    destruct (Z.leb_spec dice (Z.rem (HOME_ENTRY_INDICES c - p + 52) 52)).
    + rewrite pushRange_last_cases. destruct (Z.leb_spec 1 dice); [|exact Hp].
      assert (0 <= Z.rem (p + dice) 52) by (apply Z.rem_nonneg; lia). lia.
    + rewrite last_app, pushRange_last by lia. lia.
  - destruct (Z.leb_spec 100 p); [|exact Hp].
    rewrite pushRange_last_cases. destruct (Z.leb_spec 1 dice); lia.
  - destruct (Z.leb_spec 100 p); [lia|exact Hp].
Qed.

Lemma onRollDice_tokens roll st : tokens (state_of (onRollDice roll st)) = tokens st.
Proof.
  unfold onRollDice. destruct (isRolling st || bool_decide (diceRoll st <> None)); [reflexivity|].
  simpl. destruct (currentColor _); [|reflexivity]. destruct (negb _); reflexivity.
Qed.

Lemma passTurn_tokens roll st : tokens (state_of (passTurn roll st)) = tokens st.
Proof.
  unfold passTurn. rewrite finalizeMove_no_callback.
  destruct (currentColor st) as [c|]; [rewrite checkWin_Some; simpl; rewrite checkWinState_tokens|];
    apply finalizeState_tokens.
Qed.

(** X17: whatever the state, an event changes at most one token position,
    that of the token that was clicked, and it never brings a token back to
    its base: a token that is out of the base is still out of it after any
    roll click, token click or pass timer. *)
Theorem X17_tokens_stay_out st e c k p :
  posOf st c k = Some p ->
  (e <> ClickToken c k -> posOf (state_of (handle e st)) c k = Some p)
  /\ (p <> Base ->
        exists q, posOf (state_of (handle e st)) c k = Some q /\ q <> Base).
Proof.
  intros Hs.
  assert (Hclick : forall color slot,
            state_of (onTokenClick color slot st) = st
            \/ exists dice p0, posOf st color slot = Some p0
                               /\ state_of (onTokenClick color slot st)
                                  = moved color slot p0 dice st).
  { intros color slot. destruct (tokens st color !! slot) as [p0|] eqn:Hp0.
    - destruct (onTokenClick_cases st color slot p0 Hp0)
        as [->|(dice & Hm & ->)]; [left; reflexivity|].
      right. exists dice, p0. split; [exact Hp0|]. rewrite Hm. reflexivity.
    - left. unfold onTokenClick. destruct (bool_decide _); [reflexivity|].
      destruct (isRolling st); [reflexivity|]. destruct (diceRoll st); [|reflexivity].
      rewrite Hp0. reflexivity. }
  assert (Hcases : posOf (state_of (handle e st)) c k = Some p
                   \/ exists dice, e = ClickToken c k
                        /\ posOf (state_of (handle e st)) c k = Some (destination c p dice)).
  { destruct e as [roll|color slot|]; simpl.
    - left. destruct (rollBtnDisabled st); [exact Hs|].
      unfold posOf. rewrite onRollDice_tokens. exact Hs.
    - destruct (Hclick color slot) as [->|(dice & p0 & Hp0 & ->)]; [left; exact Hs|].
      destruct (decide ((c, k) = (color, slot))) as [Heq|Hne].
      + inversion Heq; subst. right. exists dice. split; [reflexivity|].
        assert (p0 = p) by (unfold posOf in *; congruence). subst p0.
        apply moved_posOf_same. exact Hs.
      + left. rewrite moved_posOf_other by assumption. exact Hs.
    - left. destruct (passTimers st) as [|roll rest]; [exact Hs|].
      unfold posOf. rewrite passTurn_tokens. exact Hs. }
  split.
  - intros Hne. destruct Hcases as [H|(dice & He & _)]; [exact H|contradiction].
  - intros Hp. destruct Hcases as [H|(dice & _ & H)].
    + exists p. split; assumption.
    + exists (destination c p dice). split; [exact H|]. apply destination_not_base, Hp.
Qed.

Lemma X17_tokens_stay_out_witness :
  posOf captureBoard red 0 = Some (Track 1)
  /\ posOf (state_of (handle (ClickToken blue 0) captureBoard)) red 0 = Some (Track 1).
Proof.
  split; [reflexivity|].
  apply (X17_tokens_stay_out captureBoard (ClickToken blue 0) red 0%nat (Track 1) eq_refl).
  discriminate.
Defined.

(** ** Where tokens are drawn *)

Lemma PATH_COORDS_inside :
  Forall (fun p => insideBoard (mkCoord (x p - TOKEN_SIZE / 2) (y p - TOKEN_SIZE / 2)))
         PATH_COORDS.
Proof. unfold insideBoard. apply (bool_decide_unpack _). vm_compute. exact I. Qed.

Lemma HOME_PATH_COORDS_inside color :
  Forall (fun p => insideBoard (mkCoord (x p - TOKEN_SIZE / 2) (y p - TOKEN_SIZE / 2)))
         (HOME_PATH_COORDS color).
Proof.
  unfold insideBoard. destruct color; apply (bool_decide_unpack _); vm_compute; exact I.
Qed.

(** X18: for each of the four token slots of a colour and every position of
    the encoding (base, track index 0..51, lane position 100..105)
    [getTokenScreenCoords] returns a corner at which the 30 pixel token lies
    wholly inside the 600 pixel board; for any other position it returns the
    origin, and for a base token with a slot index of 4 or more it throws. *)
Theorem X18_token_drawn_inside_board color slot pos :
  ((slot < TOKEN_COUNT)%nat -> validPos pos ->
     exists c, getTokenScreenCoords color slot pos = Ok c /\ insideBoard c)
  /\ (pos < -1 \/ 52 <= pos < 100 \/ 106 <= pos ->
        getTokenScreenCoords color slot pos = Ok (mkCoord 0 0))
  /\ ((TOKEN_COUNT <= slot)%nat ->
        getTokenScreenCoords color slot Base = Raise TypeError).
Proof.
  split; [|split].
  - intros Hslot Hv. unfold getTokenScreenCoords, validPos, Base, TOKEN_COUNT in *.
    destruct (Z.eqb_spec pos (-1)) as [->|Hb].
    + unfold getBaseCoords, insideBoard.
      destruct color; destruct slot as [|[|[|[|slot]]]]; try lia;
        simpl; eexists; (split; [reflexivity|]);
        apply (bool_decide_unpack _); vm_compute; exact I.
    + destruct (Z.leb_spec 0 pos); [destruct (Z.ltb_spec pos 52)|]; simpl; try lia.
      * destruct (PATH_COORDS !! Z.to_nat pos) as [p|] eqn:Hp.
        -- exists (mkCoord (x p - TOKEN_SIZE / 2) (y p - TOKEN_SIZE / 2)).
           split; [reflexivity|].
           apply (Forall_lookup_1 _ _ _ _ PATH_COORDS_inside Hp).
        -- exfalso. apply lookup_ge_None in Hp. simpl in Hp. lia.
      * destruct (Z.leb_spec 100 pos); destruct (Z.ltb_spec pos 106); simpl; try lia.
        destruct (HOME_PATH_COORDS color !! Z.to_nat (pos - 100)) as [p|] eqn:Hp.
        -- exists (mkCoord (x p - TOKEN_SIZE / 2) (y p - TOKEN_SIZE / 2)).
           split; [reflexivity|].
           apply (Forall_lookup_1 _ _ _ _ (HOME_PATH_COORDS_inside color) Hp).
        -- exfalso. apply lookup_ge_None in Hp.
           assert (length (HOME_PATH_COORDS color) = 6%nat) by (destruct color; reflexivity).
           lia.
  - intros Hp. unfold getTokenScreenCoords.
    destruct (Z.eqb_spec pos (-1)); [lia|].
    destruct (Z.leb_spec 0 pos); destruct (Z.ltb_spec pos 52);
      destruct (Z.leb_spec 100 pos); destruct (Z.ltb_spec pos 106); simpl; try lia; reflexivity.
  - intros Hslot. unfold getTokenScreenCoords, getBaseCoords, Base. simpl.
    rewrite (proj2 (lookup_ge_None (basePositions color) slot)); [reflexivity|].
    unfold TOKEN_COUNT in Hslot. destruct color; simpl; lia.
Qed.

Lemma X18_token_drawn_inside_board_witness :
  (3 < TOKEN_COUNT)%nat /\ validPos 105
  /\ exists c, getTokenScreenCoords yellow 3 105 = Ok c /\ insideBoard c.
Proof.
  split; [unfold TOKEN_COUNT; lia|]. split; [unfold validPos; lia|].
  apply (X18_token_drawn_inside_board yellow 3%nat 105);
    [unfold TOKEN_COUNT; lia | unfold validPos; lia].
Defined.

Lemma nextOnTrack_all : forallb nextOnTrack (map Z.of_nat (seq 0 52)) = true.
Proof. vm_compute. reflexivity. Qed.

Lemma PATH_COORDS_NoDup : NoDup PATH_COORDS.
Proof. apply (bool_decide_unpack _). vm_compute. exact I. Qed.

(** X19: the 52 track squares are drawn at 52 different places, and each
    square and its successor on the track (index [i + 1], wrapping from 51
    to 0) are different squares at most one grid cell apart in each
    direction, so one step of the animation moves the token to a neighbouring
    cell. *)
Theorem X19_track_is_a_ring :
  (forall i, 0 <= i < 52 ->
     exists a b,
       PATH_COORDS !! Z.to_nat i = Some a
       /\ PATH_COORDS !! Z.to_nat ((i + 1) mod 52) = Some b
       /\ a <> b
       /\ Z.abs (x a - x b) <= GRID_UNIT /\ Z.abs (y a - y b) <= GRID_UNIT)
  /\ (forall i j a, PATH_COORDS !! i = Some a -> PATH_COORDS !! j = Some a -> i = j).
Proof.
  split.
  - intros i Hi.
    assert (Hin : In i (map Z.of_nat (seq 0 52))).
    { apply in_map_iff. exists (Z.to_nat i). split; [lia|]. apply in_seq. lia. }
    pose proof (proj1 (forallb_forall _ _) nextOnTrack_all i Hin) as Hn.
    unfold nextOnTrack in Hn.
    destruct (PATH_COORDS !! Z.to_nat i) as [a|]; [|discriminate].
    destruct (PATH_COORDS !! Z.to_nat ((i + 1) mod 52)) as [b|]; [|discriminate].
    exists a, b. split; [reflexivity|]. split; [reflexivity|].
    unfold neighbours in Hn. apply andb_true_iff in Hn as [Hn Hy].
    apply andb_true_iff in Hn as [Hne Hx].
    apply negb_true_iff, bool_decide_eq_false in Hne.
    apply Z.leb_le in Hx, Hy. auto.
  - intros i j a Hi Hj. exact (NoDup_lookup _ _ _ _ PATH_COORDS_NoDup Hi Hj).
Qed.

Lemma X19_track_is_a_ring_witness :
  0 <= 51 < 52
  /\ exists a b,
       PATH_COORDS !! Z.to_nat 51 = Some a
       /\ PATH_COORDS !! Z.to_nat ((51 + 1) mod 52) = Some b
       /\ a <> b
       /\ Z.abs (x a - x b) <= GRID_UNIT /\ Z.abs (y a - y b) <= GRID_UNIT.
Proof.
  split; [lia|]. apply (proj1 X19_track_is_a_ring 51). lia.
Defined.

(** X20: on every track index and lane position the corner returned by
    [getTokenScreenCoords] is the centre returned by [getTokenCoords] moved
    up and left by half a token; for a token in its base [getTokenCoords]
    returns [null] whereas [getTokenScreenCoords] draws it on one of the four
    cells of its colour's base, a different cell for each slot. *)
Theorem X20_corner_and_centre color slot pos :
  (0 <= pos < 52 \/ 100 <= pos <= 105 ->
     exists p,
       getTokenCoords color pos = Ok (Some p)
       /\ getTokenScreenCoords color slot pos
          = Ok (mkCoord (x p - TOKEN_SIZE / 2) (y p - TOKEN_SIZE / 2)))
  /\ getTokenCoords color Base = Ok None
  /\ (forall slot', (slot < TOKEN_COUNT)%nat -> (slot' < TOKEN_COUNT)%nat ->
        getTokenScreenCoords color slot Base = getTokenScreenCoords color slot' Base ->
        slot = slot').
Proof.
  split; [|split].
  - intros Hp. unfold getTokenCoords, getTokenScreenCoords.
    destruct (Z.eqb_spec pos (-1)); [lia|].
    destruct (Z.leb_spec 0 pos); [destruct (Z.ltb_spec pos 52)|]; simpl; try lia.
    + destruct (PATH_COORDS !! Z.to_nat pos) as [p|] eqn:Hl; [eauto|].
      exfalso. apply lookup_ge_None in Hl. simpl in Hl. lia.
    + destruct (Z.leb_spec 100 pos); destruct (Z.ltb_spec pos 106); simpl; try lia.
      destruct (HOME_PATH_COORDS color !! Z.to_nat (pos - 100)) as [p|] eqn:Hl; [eauto|].
      exfalso. apply lookup_ge_None in Hl.
      assert (length (HOME_PATH_COORDS color) = 6%nat) by (destruct color; reflexivity).
      lia.
  - reflexivity.
  - intros slot' Hs Hs'. unfold TOKEN_COUNT in *.
    destruct color; destruct slot as [|[|[|[|slot]]]]; try lia;
      destruct slot' as [|[|[|[|slot']]]]; try lia;
      intros Heq; try reflexivity; vm_compute in Heq; discriminate Heq.
Qed.

Lemma X20_corner_and_centre_witness :
  (0 <= 8 < 52 \/ 100 <= 8 <= 105)
  /\ exists p,
       getTokenCoords red 8 = Ok (Some p)
       /\ getTokenScreenCoords red 0 8
          = Ok (mkCoord (x p - TOKEN_SIZE / 2) (y p - TOKEN_SIZE / 2)).
Proof.
  split; [lia|]. apply (proj1 (X20_corner_and_centre red 0%nat 8)). lia.
Defined.

(** ** Own tokens block, opponents do not *)

(** X21: whether a token may move, and whether a colour has any movable
    token, depends on the positions of that colour's own tokens only: two
    states that agree on them agree on [canMoveToken] and on
    [canAnyTokenMove], wherever the opponents stand. *)
Theorem X21_legality_ignores_opponents st1 st2 c p dice :
  tokens st1 c = tokens st2 c ->
  canMoveToken st1 c p dice = canMoveToken st2 c p dice
  /\ canAnyTokenMove st1 c dice = canAnyTokenMove st2 c dice.
Proof.
  intros H. unfold canAnyTokenMove, canMoveToken, isOccupiedByPlayer. rewrite H.
  split; reflexivity.
Qed.

Lemma X21_legality_ignores_opponents_witness :
  tokens captureBoard blue
  = tokens (board 1 (Some 4) inBase [Track 49; Base; Base; Base] inBase inBase) blue
  /\ canMoveToken captureBoard blue (Track 49) 4
     = canMoveToken (board 1 (Some 4) inBase [Track 49; Base; Base; Base] inBase inBase)
         blue (Track 49) 4.
Proof.
  split; [reflexivity|].
  apply (X21_legality_ignores_opponents captureBoard
           (board 1 (Some 4) inBase [Track 49; Base; Base; Base] inBase inBase)
           blue (Track 49) 4 eq_refl).
Defined.

Lemma noStack_moved c slot p dice st :
  posOf st c slot = Some p -> canMoveToken st c p dice = true ->
  wf_tokens st -> noStack st -> noStack (moved c slot p dice st).
Proof.
  intros Hs Hc Hwf Hno.
  assert (Hkey : forall k q, k <> slot -> q <> Base -> posOf st c k = Some q ->
                             destination c p dice = q -> False).
  { intros k q Hk Hq Hpk Hdest.
    destruct (destination_free st c p dice Hc) as [Heq|Hfree].
    - apply Hk. apply (Hno c k slot q Hq Hpk). congruence.
    - apply isOccupiedByPlayer_free in Hfree. apply Hfree. exists k. split.
      + rewrite <- (Hwf c). apply lookup_lt_is_Some. unfold posOf in Hpk.
        rewrite Hpk. eauto.
      + rewrite Hdest. exact Hpk. }
  intros c' i j q Hq Hi Hj.
  destruct (decide (c' = c)) as [->|Hne].
  - destruct (decide (i = slot)) as [->|Hi'], (decide (j = slot)) as [->|Hj'];
      [reflexivity | | |].
    + rewrite moved_posOf_same in Hi by exact Hs.
      rewrite moved_posOf_other in Hj by (try exact Hs; congruence).
      exfalso. apply (Hkey j q Hj' Hq Hj). congruence.
    + rewrite moved_posOf_same in Hj by exact Hs.
      rewrite moved_posOf_other in Hi by (try exact Hs; congruence).
      exfalso. apply (Hkey i q Hi' Hq Hi). congruence.
    + rewrite moved_posOf_other in Hi, Hj by (try exact Hs; congruence).
      apply (Hno c i j q); assumption.
  - rewrite moved_posOf_other in Hi, Hj by (try exact Hs; congruence).
    apply (Hno c' i j q); assumption.
Qed.

Lemma noStack_step e st :
  wf_tokens st -> noStack st -> noStack (state_of (handle e st)).
Proof.
  intros Hwf Hno.
  assert (Hsame : forall s, tokens s = tokens st -> noStack s).
  { intros s Hs. unfold noStack, posOf. rewrite Hs. exact Hno. }
  destruct e as [roll|color slot|]; simpl.
  - destruct (rollBtnDisabled st); [exact Hno|]. apply Hsame, onRollDice_tokens.
  - unfold onTokenClick.
    destruct (bool_decide _); [exact Hno|]. destruct (isRolling st); [exact Hno|].
    destruct (diceRoll st) as [dice|]; [|exact Hno].
    destruct (tokens st color !! slot) as [p|] eqn:Hs; [|exact Hno].
    destruct (canMoveToken st color p dice) eqn:Hm; [|exact Hno]. simpl.
    rewrite (moveToken_legal color slot p dice st Hs Hm). simpl.
    apply noStack_moved; assumption.
  - destruct (passTimers st) as [|roll rest]; [exact Hno|].
    apply Hsame. apply (passTurn_tokens roll (set_passTimers rest st)).
Qed.

(** ** Entering the game *)

(** X23: a colour whose four tokens are all in the base has a movable token
    exactly when the dice shows 6. *)
Theorem X23_six_to_enter st c dice :
  tokens st c = [Base; Base; Base; Base] ->
  canAnyTokenMove st c dice = true <-> dice = 6.
Proof.
  intros Ht. unfold canAnyTokenMove, canMoveToken, isOccupiedByPlayer. rewrite Ht.
  pose proof (startIndex_range c) as Hst. unfold Base. simpl.
  destruct (Z.eqb_spec (START_INDICES c) (-1)); [lia|].
  rewrite !bool_decide_eq_false_2 by (intros Heq; inversion Heq; lia). simpl.
  rewrite andb_true_r, orb_false_r. apply Z.eqb_eq.
Qed.

Lemma X23_six_to_enter_witness :
  tokens initialState red = [Base; Base; Base; Base]
  /\ canAnyTokenMove initialState red 6 = true.
Proof.
  split; [reflexivity|].
  apply (X23_six_to_enter initialState red 6 eq_refl). reflexivity.
Defined.

(** * The game between two step timers *)

(** ** Squares of a path *)

Lemma map_lookup_Some {A B} (f : A -> B) (l : list A) m q :
  map f l !! m = Some q -> exists a, l !! m = Some a /\ q = f a.
Proof.
  revert m. induction l as [|a l IH]; intros m H; [destruct m; discriminate|].
  destruct m as [|m]; simpl in H.
  - inversion H. exists a. split; reflexivity.
  - apply IH in H. exact H.
Qed.

Lemma pushRange_lookup lo hi f m q :
  pushRange lo hi f !! m = Some q -> q = f (lo + Z.of_nat m) /\ lo + Z.of_nat m <= hi.
Proof.
  unfold pushRange. intros H. apply map_lookup_Some in H. destruct H as (k & Hk & ->).
  apply lookup_seq in Hk. destruct Hk as [-> Hlt]. simpl. split; [reflexivity|lia].
Qed.

(** Every square of the path of a legal move is a position of the encoding
    other than the base, and only its last square can be the finishing
    square. *)
Lemma movePath_lookup st c pos dice m q :
  validPos pos -> 1 <= dice <= 6 -> canMoveToken st c pos dice = true ->
  movePath c pos dice !! m = Some q ->
  validPos q /\ q <> Base
  /\ ((S m < length (movePath c pos dice))%nat -> q <> Finished).
Proof.
  intros Hv Hd Hc Hq. pose proof (startIndex_range c) as Hst.
  pose proof (homeEntry_range c) as Hhe.
  unfold movePath, canMoveToken, validPos, Base, Finished, Home in *.
  destruct (Z.eqb_spec pos (-1)) as [->|Hb].
  - destruct m as [|m]; [|destruct m; discriminate]. inversion Hq; subst. simpl. lia.
  - destruct (Z.leb_spec 0 pos) as [H0|H0];
      [destruct (Z.ltb_spec pos 52) as [H1|H1] |]; simpl in *; try lia.
    + set (d := Z.rem (HOME_ENTRY_INDICES c - pos + 52) 52) in *.
      assert (Hdr : 0 <= d < 52) by (apply Z.rem_bound_pos; lia).
      destruct (Z.leb_spec dice d) as [Hle|Hgt].
      * apply pushRange_lookup in Hq. destruct Hq as [-> Hm].
        assert (0 <= Z.rem (pos + (1 + Z.of_nat m)) 52 < 52) by (apply Z.rem_bound_pos; lia).
        lia.
      * destruct (Z.leb_spec 6 (dice - d - 1)); [discriminate|].
        rewrite length_app, !pushRange_length.
        apply lookup_app_Some in Hq. destruct Hq as [Hq|[Hlen Hq]].
        -- apply pushRange_lookup in Hq. destruct Hq as [-> Hm].
           assert (0 <= Z.rem (pos + (1 + Z.of_nat m)) 52 < 52) by (apply Z.rem_bound_pos; lia).
           lia.
        -- rewrite pushRange_length in Hlen, Hq.
           apply pushRange_lookup in Hq. destruct Hq as [-> Hm]. lia.
    + destruct (Z.leb_spec 100 pos); [|lia].
      destruct (Z.leb_spec 6 (pos - 100 + dice)); [discriminate|].
      rewrite pushRange_length.
      apply pushRange_lookup in Hq. destruct Hq as [-> Hm]. lia.
Qed.

Lemma movePath_nonempty st c pos dice :
  validPos pos -> 1 <= dice -> canMoveToken st c pos dice = true ->
  movePath c pos dice <> [].
Proof.
  intros Hv Hd Hc Hnil.
  destruct Hv as [-> | Hv]; [discriminate Hnil|].
  assert (Hlen : Z.of_nat (length (movePath c pos dice)) = dice)
    by (apply movePath_length; lia).
  rewrite Hnil in Hlen. simpl in Hlen. lia.
Qed.

(** ** The state of a move under way *)

Lemma inFlight_fields st0 c i done sp :
  let s := inFlight st0 c i done sp in
  currentPlayerIndex s = currentPlayerIndex st0 /\ diceRoll s = diceRoll st0
  /\ rollCount s = rollCount st0 /\ isRolling s = true
  /\ winner s = winner st0 /\ rollBtnDisabled s = rollBtnDisabled st0
  /\ passTimers s = passTimers st0.
Proof.
  unfold inFlight. simpl.
  apply (animateSteps_fields c i done (set_isRolling true st0)).
Qed.

Lemma inFlight_tokens_other st0 c i done sp c' :
  c' <> c -> tokens (inFlight st0 c i done sp) c' = tokens st0 c'.
Proof.
  intros H. unfold inFlight. simpl. rewrite animateSteps_tokens_other by assumption.
  reflexivity.
Qed.

Lemma inFlight_tokens_same st0 c i done sp :
  tokens (inFlight st0 c i done sp) c
  = match list.last done with
    | Some q => <[i := q]> (tokens st0 c)
    | None => tokens st0 c
    end.
Proof. unfold inFlight. simpl. rewrite animateSteps_tokens_same. reflexivity. Qed.

(** While a legal move is under way the moving token stands on its start
    position or on a square of the path that is not the last; the other
    tokens are where they were. *)
Lemma inFlight_posOf st0 c i pos dice done sp rest c' k q :
  gameInv st0 -> diceRoll st0 = Some dice ->
  posOf st0 c i = Some pos -> canMoveToken st0 c pos dice = true ->
  movePath c pos dice = done ++ sp :: rest ->
  posOf (inFlight st0 c i done sp) c' k = Some q ->
  posOf st0 c' k = Some q
  \/ ((c', k) = (c, i) /\ validPos q /\ q <> Base /\ q <> Finished).
Proof.
  intros (Hplay & Hvalid & _ & _ & _ & Hturn) Hdice Hs Hc Hpath Hq.
  unfold turnCoherent in Hturn. rewrite Hdice in Hturn. destruct Hturn as (Hd & _).
  unfold posOf in *. destruct (decide (c' = c)) as [->|Hne].
  - rewrite inFlight_tokens_same in Hq.
    destruct (list.last done) as [l|] eqn:Hlast; [|left; exact Hq].
    destruct (decide (k = i)) as [->|Hk].
    + right. rewrite list_lookup_insert_eq in Hq
        by (apply lookup_lt_is_Some; rewrite Hs; eauto).
      inversion Hq; subst l. split; [reflexivity|].
      apply last_Some in Hlast. destruct Hlast as [l' ->].
      assert (Hl : movePath c pos dice !! length l' = Some q).
      { rewrite Hpath, <- app_assoc. simpl. apply list_lookup_middle. reflexivity. }
      destruct (movePath_lookup st0 c pos dice (length l') q (Hvalid c i pos Hs) Hd Hc Hl)
        as (H1 & H2 & H3).
      split; [exact H1|]. split; [exact H2|]. apply H3.
      rewrite Hpath, !length_app. simpl. lia.
    + left. rewrite list_lookup_insert_ne in Hq by congruence. exact Hq.
  - left. rewrite inFlight_tokens_other in Hq by assumption. exact Hq.
Qed.

Lemma inFlight_slot st0 c i done sp :
  is_Some (tokens st0 c !! i) -> is_Some (tokens (inFlight st0 c i done sp) c !! i).
Proof.
  intros H. rewrite inFlight_tokens_same. destruct (list.last done); [|exact H].
  apply lookup_lt_is_Some. rewrite length_insert. apply lookup_lt_is_Some, H.
Qed.

Lemma inFlight_wf st0 c i done sp : wf_tokens st0 -> wf_tokens (inFlight st0 c i done sp).
Proof.
  intros Hwf c'. destruct (decide (c' = c)) as [->|Hne].
  - rewrite inFlight_tokens_same. destruct (list.last done); [rewrite length_insert|]; apply Hwf.
  - rewrite inFlight_tokens_other by assumption. apply Hwf.
Qed.

Lemma inFlight_playInv st0 c i pos dice done sp rest :
  gameInv st0 -> diceRoll st0 = Some dice ->
  posOf st0 c i = Some pos -> canMoveToken st0 c pos dice = true ->
  movePath c pos dice = done ++ sp :: rest ->
  playInv (inFlight st0 c i done sp) /\ allValid (inFlight st0 c i done sp).
Proof.
  intros Hinv Hdice Hs Hc Hpath.
  pose proof Hinv as ((Hwf & Hsole & Hnone) & Hvalid & _).
  split; [split; [|split]|].
  - apply inFlight_wf, Hwf.
  - intros c' a b' Ha Hb.
    destruct (inFlight_posOf st0 c i pos dice done sp rest c' a _ Hinv Hdice Hs Hc Hpath Ha)
      as [Ha'|(_ & _ & _ & Hn)]; [|contradiction].
    destruct (inFlight_posOf st0 c i pos dice done sp rest c' b' _ Hinv Hdice Hs Hc Hpath Hb)
      as [Hb'|(_ & _ & _ & Hn)]; [|contradiction].
    apply (Hsole c'); assumption.
  - destruct (inFlight_fields st0 c i done sp) as (_ & _ & _ & _ & Hw & _).
    rewrite Hw. exact Hnone.
  - intros c' k q Hq.
    destruct (inFlight_posOf st0 c i pos dice done sp rest c' k q Hinv Hdice Hs Hc Hpath Hq)
      as [Hq'|(_ & Hv & _)]; [eapply Hvalid; exact Hq' | exact Hv].
Qed.

(** ** The invariant of the browser *)

Lemma onTokenClick_accepted st c i pos dice :
  currentColor st = Some c -> isRolling st = false -> diceRoll st = Some dice ->
  tokens st c !! i = Some pos -> canMoveToken st c pos dice = true ->
  onTokenClick c i st = Done (moved c i pos dice st).
Proof.
  intros Hc Hr Hd Hs Hm. unfold onTokenClick. rewrite Hc, Hr, Hd, Hs, Hm.
  rewrite bool_decide_eq_false_2 by (intros H; apply H; reflexivity).
  simpl. apply moveToken_legal; assumption.
Qed.

Lemma gameInv_moved st c i pos dice :
  gameInv st -> noStack st ->
  currentColor st = Some c -> diceRoll st = Some dice ->
  posOf st c i = Some pos -> canMoveToken st c pos dice = true ->
  gameInv (moved c i pos dice st) /\ noStack (moved c i pos dice st).
Proof.
  intros Hinv Hno Hc Hd Hs Hm.
  pose proof Hinv as ((Hwf & _) & _ & _ & _ & Hroll & _).
  assert (Hi : (i < TOKEN_COUNT)%nat).
  { rewrite <- (Hwf c). apply lookup_lt_is_Some. unfold posOf in Hs. rewrite Hs. eauto. }
  split.
  - pose proof (gameInv_step (ClickToken c i) st Hi Hinv) as H. simpl in H.
    rewrite (onTokenClick_accepted st c i pos dice Hc Hroll Hd Hs Hm) in H. exact H.
  - apply noStack_moved; assumption.
Qed.

Lemma moveTokenAsync_legal c i pos dice b :
  tokens (game b) c !! i = Some pos -> canMoveToken (game b) c pos dice = true ->
  exists cb,
    moveTokenAsync c i dice None b
    = animateCall c i (movePath c pos dice) cb
        (mkBrowser (set_isRolling true (game b)) (stepTimers b))
    /\ forall s, cb [] s = Done (checkWinState c (finalizeState dice s)).
Proof.
  intros Hs Hm. unfold moveTokenAsync, movePath, canMoveToken in *. cbv zeta. rewrite Hs.
  destruct (pos =? -1).
  - destruct (dice =? 6); [|discriminate]. simpl in Hm. simpl negb. cbv iota.
    destruct (isOccupiedByPlayer _ _ _); [discriminate|].
    eexists. split; [reflexivity|]. intros s. simpl.
    rewrite killTokensAt_undefined, finalizeMove_no_callback. apply checkWin_Some.
  - destruct ((0 <=? pos) && (pos <? 52)).
    + destruct (dice <=? _); (eexists; split; [reflexivity|]); intros s; simpl;
        rewrite ?killTokensAt_undefined, finalizeMove_no_callback; apply checkWin_Some.
    + destruct (100 <=? pos); [|discriminate].
      eexists. split; [reflexivity|]. intros s. cbv beta.
      rewrite finalizeMove_no_callback. apply checkWin_Some.
Qed.

Lemma onTokenClickAsync_cases c i b :
  onTokenClickAsync c i b = b
  \/ exists pos dice,
       currentColor (game b) = Some c /\ isRolling (game b) = false
       /\ diceRoll (game b) = Some dice /\ tokens (game b) c !! i = Some pos
       /\ canMoveToken (game b) c pos dice = true
       /\ onTokenClickAsync c i b = moveTokenAsync c i dice None b.
Proof.
  unfold onTokenClickAsync. cbv zeta.
  destruct (bool_decide_reflect (currentColor (game b) <> Some c)) as [|Hc]; [left; reflexivity|].
  destruct (isRolling (game b)) eqn:Hr; [left; reflexivity|].
  destruct (diceRoll (game b)) as [dice|] eqn:Hd; [|left; reflexivity].
  destruct (tokens (game b) c !! i) as [pos|] eqn:Hs; [|left; reflexivity].
  destruct (canMoveToken (game b) c pos dice) eqn:Hm; [|left; reflexivity].
  right. exists pos, dice. simpl.
  split; [destruct (decide (currentColor (game b) = Some c)); [assumption|contradiction]|].
  repeat split; try assumption; reflexivity.
Qed.

Lemma browserInv_initial : browserInv (mkBrowser initialState []).
Proof.
  split; [apply gameInv_initial|].
  intros c i j p Hp Hi. unfold posOf in Hi. simpl in Hi.
  destruct i as [|[|[|[|i]]]]; inversion Hi; subst; contradiction.
Qed.

(** The next call of [animateTokenMovement] either schedules the next step
    or, on the emptied array, ends the move. *)
Lemma browserInv_animateCall st0 c i pos dice done rest cb g :
  gameInv st0 -> noStack st0 ->
  currentColor st0 = Some c -> diceRoll st0 = Some dice ->
  posOf st0 c i = Some pos -> canMoveToken st0 c pos dice = true ->
  movePath c pos dice = done ++ rest ->
  g = animateSteps c i done (set_isRolling true st0) ->
  (forall s, cb [] s = Done (checkWinState c (finalizeState dice s))) ->
  browserInv (animateCall c i rest cb (mkBrowser g [])).
Proof.
  intros Hinv Hno Hc Hd Hs Hm Hpath -> Hcb.
  destruct rest as [|sp rest]; unfold animateCall; cbn [game stepTimers].
  - rewrite Hcb. rewrite app_nil_r in Hpath. rewrite <- Hpath.
    change (browserInv (mkBrowser (moved c i pos dice st0) [])).
    apply gameInv_moved; assumption.
  - assert (Hslot : is_Some (tokens (animateSteps c i done (set_isRolling true st0)) c !! i)).
    { rewrite animateSteps_tokens_same. simpl.
      assert (H0 : is_Some (tokens st0 c !! i)) by (unfold posOf in Hs; rewrite Hs; eauto).
      destruct (list.last done); [|exact H0].
      apply lookup_lt_is_Some. rewrite length_insert. apply lookup_lt_is_Some, H0. }
    destruct Hslot as [q Hq]. rewrite Hq.
    unfold browserInv. cbn [stepTimers app game timerColor timerIndex timerStepPos
                              timerSteps timerCallback].
    exists st0, pos, dice, done. repeat (split; [assumption|]).
    split; [reflexivity|exact Hcb].
Qed.

Lemma browserInv_step e b :
  valid_browser_event e -> browserInv b -> browserInv (browserStep e b).
Proof.
  intros Hv Hinv. unfold browserInv in Hinv.
  destruct b as [g ts]. cbn [game stepTimers] in Hinv.
  destruct ts as [|t [|t' ts]]; [| |contradiction].
  - (* no step timer pending *)
    destruct Hinv as [Hg Hno].
    assert (Hatomic : forall e0, valid_event e0 ->
              browserInv (mkBrowser (state_of (handle e0 g)) [])).
    { intros e0 Hv0. split; [apply gameInv_step; assumption|].
      apply noStack_step; [apply Hg | exact Hno]. }
    destruct e as [[roll|c i|]|]; cbn [browserStep game stepTimers].
    + apply Hatomic, Hv.
    + destruct (onTokenClickAsync_cases c i (mkBrowser g []))
        as [->|(pos & dice & Hc & Hr & Hd & Hs & Hm & ->)]; [split; assumption|].
      cbn [game] in *.
      destruct (moveTokenAsync_legal c i pos dice (mkBrowser g []) Hs Hm) as (cb & -> & Hcb).
      cbn [game stepTimers].
      apply (browserInv_animateCall g c i pos dice [] (movePath c pos dice) cb);
        try assumption; reflexivity.
    + apply Hatomic, Hv.
    + split; assumption.
  - (* a move is under way *)
    destruct Hinv as (st0 & pos & dice & done & Hg0 & Hno0 & Hc & Hd & Hs & Hm & Hpath & Hgame & Hcb).
    cbn [game] in Hgame.
    destruct (inFlight_fields st0 (timerColor t) (timerIndex t) done (timerStepPos t))
      as (Hf1 & Hf2 & Hf3 & Hf4 & Hf5 & Hf6 & Hf7).
    rewrite <- Hgame in Hf1, Hf2, Hf3, Hf4, Hf5, Hf6, Hf7.
    pose proof Hg0 as (_ & _ & _ & _ & _ & Hturn).
    unfold turnCoherent in Hturn. rewrite Hd in Hturn.
    destruct Hturn as (_ & _ & Hbtn & c0 & Hc0 & Hpt).
    assert (c0 = timerColor t) by congruence. subst c0.
    assert (Hany : canAnyTokenMove st0 (timerColor t) dice = true).
    { apply canAnyTokenMove_spec. exists (timerIndex t), pos. split; [|split; assumption].
      destruct Hg0 as ((Hwf & _) & _). rewrite <- (Hwf (timerColor t)).
      apply lookup_lt_is_Some. unfold posOf in Hs. rewrite Hs. eauto. }
    rewrite Hany in Hpt.
    assert (Hsame : browserInv (mkBrowser g [t])).
    { unfold browserInv. cbn [stepTimers game].
      exists st0, pos, dice, done. repeat (split; [assumption|]). exact Hcb. }
    destruct e as [[roll|c i|]|]; cbn [browserStep game stepTimers].
    + simpl. rewrite Hf6, Hbtn. exact Hsame.
    + unfold onTokenClickAsync. cbn [game]. rewrite Hf4.
      destruct (bool_decide _); exact Hsame.
    + simpl. rewrite Hf7, Hpt. exact Hsame.
    + unfold stepTimeout. cbn [game stepTimers].
      destruct (inFlight_slot st0 (timerColor t) (timerIndex t) done (timerStepPos t))
        as [q Hq]; [unfold posOf in Hs; rewrite Hs; eauto|].
      rewrite <- Hgame in Hq. rewrite Hq.
      apply (browserInv_animateCall st0 (timerColor t) (timerIndex t) pos dice
               (done ++ [timerStepPos t]) (timerSteps t) (timerCallback t));
        try assumption.
      * rewrite <- app_assoc. exact Hpath.
      * rewrite Hgame. unfold inFlight. rewrite animateSteps_snoc. reflexivity.
Qed.

Lemma browserReachable_inv b : browserReachable b -> browserInv b.
Proof.
  induction 1 as [|b e Hb IH Hv]; [apply browserInv_initial | apply browserInv_step; assumption].
Qed.

(** ** Reachable states *)

(** What the invariant says of the global state itself. *)
Lemma browserInv_game b :
  browserInv b ->
  playInv (game b) /\ allValid (game b) /\ 0 <= currentPlayerIndex (game b) < 4
  /\ ((stepTimers b = [] /\ gameInv (game b) /\ noStack (game b))
      \/ (exists t d, stepTimers b = [t]
            /\ isRolling (game b) = true /\ diceRoll (game b) = Some d /\ 1 <= d <= 6
            /\ rollCount (game b) = 1 /\ rollBtnDisabled (game b) = true
            /\ passTimers (game b) = []
            /\ is_Some (tokens (game b) (timerColor t) !! timerIndex t))).
Proof.
  intros Hinv. unfold browserInv in Hinv.
  destruct (stepTimers b) as [|t [|t' ts]] eqn:Hts; [| |contradiction].
  - destruct Hinv as [Hg Hno]. pose proof Hg as (Hplay & Hv & _ & Hi & _).
    split; [exact Hplay|]. split; [exact Hv|]. split; [exact Hi|].
    left. split; [reflexivity|]. split; assumption.
  - destruct Hinv as (st0 & pos & dice & done & Hg0 & Hno0 & Hc & Hd & Hs & Hm & Hpath & Hgame & Hcb).
    destruct (inFlight_playInv st0 (timerColor t) (timerIndex t) pos dice done
                (timerStepPos t) (timerSteps t) Hg0 Hd Hs Hm Hpath) as [Hplay Hvalid].
    destruct (inFlight_fields st0 (timerColor t) (timerIndex t) done (timerStepPos t))
      as (Hf1 & Hf2 & Hf3 & Hf4 & Hf5 & Hf6 & Hf7).
    pose proof Hg0 as (_ & _ & _ & Hidx & _ & Hturn).
    unfold turnCoherent in Hturn. rewrite Hd in Hturn.
    destruct Hturn as (Hrange & Hrc & Hbtn & c0 & Hc0 & Hpt).
    assert (c0 = timerColor t) by congruence. subst c0.
    assert (Hany : canAnyTokenMove st0 (timerColor t) dice = true).
    { apply canAnyTokenMove_spec. exists (timerIndex t), pos. split; [|split; assumption].
      destruct Hg0 as ((Hwf & _) & _). rewrite <- (Hwf (timerColor t)).
      apply lookup_lt_is_Some. unfold posOf in Hs. rewrite Hs. eauto. }
    rewrite Hany in Hpt. rewrite Hgame.
    split; [exact Hplay|]. split; [exact Hvalid|]. split; [rewrite Hf1; exact Hidx|].
    right. exists t, dice. split; [reflexivity|].
    split; [exact Hf4|]. split; [rewrite Hf2; exact Hd|]. split; [exact Hrange|].
    split; [rewrite Hf3; exact Hrc|]. split; [rewrite Hf6; exact Hbtn|].
    split; [rewrite Hf7; exact Hpt|].
    apply inFlight_slot. unfold posOf in Hs. rewrite Hs. eauto.
Qed.

(** Played through the handlers and timers, the game never has a winner. *)
Lemma reachable_playInv st : reachable st -> playInv st.
Proof.
  intros (b & Hb & <-). apply browserInv_game, browserReachable_inv, Hb.
Qed.

Lemma reachable_no_winner st : reachable st -> winner st = None.
Proof. intros H. apply reachable_playInv in H. apply H. Qed.

Lemma sharedSquareGame_reachable : reachable (run sharedSquareGame initialState).
Proof.
  apply run_reachable; [|apply idleReachable_init].
  unfold sharedSquareGame. repeat constructor; simpl; lia.
Qed.

Lemma secondFinisherGame_reachable : reachable (run secondFinisherGame initialState).
Proof.
  apply run_reachable; [|apply idleReachable_init].
  unfold secondFinisherGame, sixes, othersPass. simpl.
  repeat constructor; simpl; lia.
Qed.

(** Red rolls a 6 and clicks its first token: the token is drawn on red's
    start square and the step timer is pending. *)
Lemma leavingBase_reachable :
  browserReachable
    (browserRun [Handler (ClickRoll 6); Handler (ClickToken red 0)]
       (mkBrowser initialState [])).
Proof.
  apply browserRun_reachable; [|constructor].
  repeat constructor; simpl; unfold TOKEN_COUNT; lia.
Qed.

(** X7: in every state the browser reaches, those between two step timers
    of a move included, each colour has its four tokens, every token is in
    its base, on a track index 0..51 or on a lane position 100..105, the
    player index is one of 0..3 and a pending roll is a value from 1 to 6; at
    most one step timer is pending, [isRolling] is set exactly while one is,
    and a roll is pending for as long as a move is under way; with no move
    under way no token stands on the track square past its own home
    entry. *)
Theorem X7_reachable_well_formed b :
  browserReachable b ->
  wf_tokens (game b) /\ allValid (game b)
  /\ 0 <= currentPlayerIndex (game b) < 4
  /\ (forall d, diceRoll (game b) = Some d -> 1 <= d <= 6)
  /\ (length (stepTimers b) <= 1)%nat
  /\ (isRolling (game b) = true <-> stepTimers b <> [])
  /\ (isRolling (game b) = true -> diceRoll (game b) <> None)
  /\ (isRolling (game b) = false -> onRoute (game b)).
Proof.
  intros Hb.
  destruct (browserInv_game b (browserReachable_inv b Hb)) as (Hplay & Hv & Hi & Hcase).
  split; [apply Hplay|]. split; [exact Hv|]. split; [exact Hi|].
  destruct Hcase as [(Hts & Hg & _)|(t & d & Hts & Hr & Hd & Hrange & _)].
  - destruct Hg as (_ & _ & Hroute & _ & Hroll & Hturn). rewrite Hts, Hroll.
    split; [|split; [simpl; lia|split; [split; [discriminate|congruence]|]]].
    + intros d Hd. unfold turnCoherent in Hturn. rewrite Hd in Hturn. apply Hturn.
    + split; [discriminate | intros _; exact Hroute].
  - rewrite Hts, Hr, Hd.
    split; [intros d' Heq; inversion Heq; subst; exact Hrange|].
    split; [simpl; lia|]. split; [split; [discriminate|reflexivity]|].
    split; discriminate.
Qed.

Lemma X7_reachable_well_formed_witness :
  browserReachable
    (browserRun [Handler (ClickRoll 6); Handler (ClickToken red 0)]
       (mkBrowser initialState []))
  /\ allValid
       (game (browserRun [Handler (ClickRoll 6); Handler (ClickToken red 0)]
                (mkBrowser initialState [])))
  /\ (length (stepTimers (browserRun [Handler (ClickRoll 6); Handler (ClickToken red 0)]
                            (mkBrowser initialState []))) <= 1)%nat.
Proof.
  split; [apply leavingBase_reachable|].
  destruct (X7_reachable_well_formed _ leavingBase_reachable) as (_ & Hv & _ & _ & Hlen & _).
  split; assumption.
Defined.

(** X8: in every reachable state, those between two step timers included,
    the roll button is disabled exactly while a roll is pending and the roll
    counter is 1 while a roll is pending and 0 otherwise; a pending pass
    timer is the only one, belongs to the pending roll, and is there only
    when no move is under way and the current colour has no movable token;
    with no move under way such a roll always has its pass timer, and while
    a move is under way none is pending. *)
Theorem X8_roll_bookkeeping st :
  reachable st ->
  (rollBtnDisabled st = true <-> diceRoll st <> None)
  /\ rollCount st = match diceRoll st with Some _ => 1 | None => 0 end
  /\ (forall d rest, passTimers st = d :: rest ->
        rest = [] /\ diceRoll st = Some d /\ isRolling st = false
        /\ exists c, currentColor st = Some c /\ canAnyTokenMove st c d = false)
  /\ (forall d c, isRolling st = false -> diceRoll st = Some d ->
        currentColor st = Some c -> canAnyTokenMove st c d = false -> passTimers st = [d])
  /\ (isRolling st = true -> passTimers st = []).
Proof.
  intros (b & Hb & <-).
  destruct (browserInv_game b (browserReachable_inv b Hb)) as (_ & _ & _ & Hcase).
  destruct Hcase as [(_ & Hg & _)|(t & d & _ & Hr & Hd & _ & Hrc & Hbtn & Hpt & _)].
  - destruct Hg as (_ & _ & _ & _ & Hroll & Ht).
    unfold turnCoherent in Ht. destruct (diceRoll (game b)) as [d|].
    + destruct Ht as (_ & Hrc & Hb' & c & Hc & Hp).
      split; [split; [discriminate|intros _; exact Hb']|]. split; [exact Hrc|].
      split; [|split; [|congruence]].
      * intros d' rest Hpt. rewrite Hpt in Hp.
        destruct (canAnyTokenMove (game b) c d) eqn:Hm; inversion Hp; subst.
        split; [reflexivity|]. split; [reflexivity|]. split; [exact Hroll|].
        exists c. split; assumption.
      * intros d' c' _ Hd Hc' Hm. inversion Hd; subst. rewrite Hc in Hc'.
        inversion Hc'; subst. rewrite Hm in Hp. exact Hp.
    + destruct Ht as (Hrc & Hb' & Hp).
      split; [split; [congruence|intros H; exfalso; apply H; reflexivity]|].
      split; [exact Hrc|]. split; [intros d rest Hpt; congruence|].
      split; [intros d c _ Hd; discriminate Hd | intros _; exact Hp].
  - rewrite Hd. split; [split; [discriminate|intros _; exact Hbtn]|]. split; [exact Hrc|].
    split; [intros d' rest Hp; congruence|].
    split; [intros d' c Hf; congruence | intros _; exact Hpt].
Qed.

Lemma X8_roll_bookkeeping_witness :
  reachable (run secondFinisherGame initialState)
  /\ rollBtnDisabled (run secondFinisherGame initialState) = true
  /\ rollCount (run secondFinisherGame initialState) = 1.
Proof.
  split; [apply secondFinisherGame_reachable|].
  destruct (X8_roll_bookkeeping _ secondFinisherGame_reachable) as (Hb & Hrc & _).
  split; [apply Hb; vm_compute; discriminate|].
  rewrite Hrc. vm_compute. reflexivity.
Defined.

(** X9: in a reachable state no handler throws: a roll click, a click on any
    of the sixteen tokens and the pass timer all return normally. *)
Theorem X9_handlers_do_not_throw st e :
  reachable st -> valid_event e -> exists st', handle e st = Done st'.
Proof.
  intros (b & Hb & <-) Hv.
  destruct (browserInv_game b (browserReachable_inv b Hb)) as ((Hwf & _) & _ & Hidx & _).
  destruct (currentColor_in_range (game b) Hidx) as [c Hc].
  destruct e as [roll|color index|]; simpl.
  - destruct (rollBtnDisabled (game b)); [eauto|]. unfold onRollDice.
    destruct (isRolling (game b) || bool_decide (diceRoll (game b) <> None)); [eauto|]. simpl.
    assert (Hc' : currentColor (set_rollCount (rollCount (game b) + 1)
                                  (set_diceRoll (Some roll) (game b)))
                  = Some c) by exact Hc.
    rewrite Hc'. eauto.
  - unfold onTokenClick.
    destruct (bool_decide _); [eauto|]. destruct (isRolling (game b)); [eauto|].
    destruct (diceRoll (game b)) as [dice|]; [|eauto].
    destruct (tokens (game b) color !! index) as [pos|] eqn:Hs.
    + destruct (canMoveToken (game b) color pos dice) eqn:Hm; simpl; [|eauto].
      rewrite (moveToken_legal color index pos dice (game b) Hs Hm). eauto.
    + exfalso. apply lookup_ge_None in Hs. simpl in Hv. rewrite (Hwf color) in Hs. lia.
  - destruct (passTimers (game b)) as [|roll rest]; [eauto|].
    unfold passTurn. rewrite finalizeMove_no_callback.
    assert (Hc' : currentColor (set_passTimers rest (game b)) = Some c) by exact Hc.
    rewrite Hc', checkWin_Some. eauto.
Qed.

Lemma X9_handlers_do_not_throw_witness :
  reachable (run sharedSquareGame initialState)
  /\ valid_event (ClickToken green 3)
  /\ exists st', handle (ClickToken green 3) (run sharedSquareGame initialState) = Done st'.
Proof.
  split; [apply sharedSquareGame_reachable|].
  split; [unfold valid_event, TOKEN_COUNT; lia|].
  apply (X9_handlers_do_not_throw _ _ sharedSquareGame_reachable).
  unfold valid_event, TOKEN_COUNT. lia.
Defined.

(** X11: in every reachable state no colour has two tokens on the finishing
    square 105, and the winner is not set: played through the handlers, the
    game is never won. *)
Theorem X11_never_won st :
  reachable st ->
  winner st = None
  /\ forall c i j, posOf st c i = Some Finished -> posOf st c j = Some Finished -> i = j.
Proof.
  intros Hr. destruct (reachable_playInv st Hr) as (_ & Hsole & Hnone).
  split; [exact Hnone | exact Hsole].
Qed.

Lemma X11_never_won_witness :
  reachable (run secondFinisherGame initialState)
  /\ posOf (run secondFinisherGame initialState) red 0 = Some Finished
  /\ winner (run secondFinisherGame initialState) = None.
Proof.
  split; [apply secondFinisherGame_reachable|]. split; [vm_compute; reflexivity|].
  apply (X11_never_won _ secondFinisherGame_reachable).
Defined.



(** A click on a movable token of the current colour starts the animation:
    the first step timer is pending afterwards. *)
Lemma onTokenClickAsync_starts b c k pos dice :
  gameInv (game b) -> stepTimers b = [] ->
  currentColor (game b) = Some c -> diceRoll (game b) = Some dice ->
  tokens (game b) c !! k = Some pos -> canMoveToken (game b) c pos dice = true ->
  stepTimers (onTokenClickAsync c k b) <> [].
Proof.
  intros Hg Hts Hc Hd Hs Hm.
  pose proof Hg as (_ & Hvalid & _ & _ & Hroll & Hturn).
  unfold turnCoherent in Hturn. rewrite Hd in Hturn. destruct Hturn as (Hrange & _).
  unfold onTokenClickAsync. cbv zeta. rewrite Hc, Hroll, Hd, Hs, Hm.
  rewrite bool_decide_eq_false_2 by (intros H; apply H; reflexivity). simpl negb. cbv iota.
  destruct (moveTokenAsync_legal c k pos dice b Hs Hm) as (cb & -> & _).
  pose proof (movePath_nonempty (game b) c pos dice (Hvalid c k pos Hs) ltac:(lia) Hm) as Hne.
  destruct (movePath c pos dice) as [|p rest]; [contradiction|].
  unfold animateCall. cbn [game stepTimers].
  assert (Hs' : tokens (set_isRolling true (game b)) c !! k = Some pos) by exact Hs.
  rewrite Hs', Hts. discriminate.
Qed.

(** X10: the browser is never stuck.  While a move is under way exactly its
    step timer is pending, and its firing puts the token on the timer's
    square and either ends the move, clearing the roll, or leaves the timer
    of the next square.  With no move under way and no roll pending, a click
    on the roll button makes the rolled value pending; with a roll pending,
    either the current colour has a token whose click starts the animation
    and, once the step timers have fired, has moved the token and cleared
    the roll, or the pass timer is pending and its firing clears the roll. *)
Theorem X10_play_never_stuck b :
  browserReachable b ->
  match stepTimers b with
  | t :: others =>
      others = []
      /\ posOf (game (browserStep StepTimeout b)) (timerColor t) (timerIndex t)
         = Some (timerStepPos t)
      /\ match stepTimers (browserStep StepTimeout b) with
         | [] => timerSteps t = []
                 /\ isRolling (game (browserStep StepTimeout b)) = false
                 /\ diceRoll (game (browserStep StepTimeout b)) = None
         | t' :: _ => timerSteps t = timerStepPos t' :: timerSteps t'
         end
  | [] =>
      match diceRoll (game b) with
      | None =>
          forall roll,
            diceRoll (game (browserStep (Handler (ClickRoll roll)) b)) = Some roll
      | Some d =>
          (exists c k n,
              (k < TOKEN_COUNT)%nat /\ currentColor (game b) = Some c
              /\ stepTimers (browserStep (Handler (ClickToken c k)) b) <> []
              /\ stepTimers (browserRun (Handler (ClickToken c k) :: repeat StepTimeout n) b)
                 = []
              /\ diceRoll (game (browserRun (Handler (ClickToken c k)
                                               :: repeat StepTimeout n) b)) = None
              /\ posOf (game (browserRun (Handler (ClickToken c k)
                                            :: repeat StepTimeout n) b)) c k
                 <> posOf (game b) c k)
          \/ (passTimers (game b) = [d]
              /\ diceRoll (game (browserStep (Handler PassTimeout) b)) = None)
      end
  end.
Proof.
  intros Hb. pose proof (browserReachable_inv b Hb) as Hinv. unfold browserInv in Hinv.
  destruct (stepTimers b) as [|t [|t' ts]] eqn:Hts; [| |contradiction].
  - destruct Hinv as [Hg _].
    pose proof Hg as (Hplay & Hvalid & Hroute & Hidx & Hroll & Ht).
    unfold turnCoherent in Ht. destruct (diceRoll (game b)) as [d|] eqn:Hd.
    + destruct Ht as (Hrange & _ & _ & c & Hc & Hp).
      destruct (canAnyTokenMove (game b) c d) eqn:Hm.
      * left. apply canAnyTokenMove_spec in Hm. destruct Hm as (k & p & Hk & Hs & Hm).
        destruct (handle_simulated (ClickToken c k) (game b)) as [n Hn].
        assert (Hbeta : mkBrowser (game b) [] = b)
          by (rewrite <- Hts; apply browser_eta).
        rewrite Hbeta in Hn.
        assert (Hdone : handle (ClickToken c k) (game b) = Done (moved c k p d (game b)))
          by (apply onTokenClick_accepted; assumption).
        rewrite Hdone in Hn. simpl state_of in Hn.
        exists c, k, n. split; [exact Hk|]. split; [exact Hc|].
        split; [apply (onTokenClickAsync_starts b c k p d); assumption|].
        rewrite Hn. cbn [game stepTimers]. split; [reflexivity|].
        split; [apply moved_turn|].
        rewrite moved_posOf_same, Hs by exact Hs. intros Heq. inversion Heq as [Hdest].
        destruct (destination_free (game b) c p d Hm) as [Hsame|Hfree].
        -- destruct (Hvalid c k p Hs) as [-> | Hp'].
           ++ unfold destination, movePath, Base in Hsame. simpl in Hsame.
              pose proof (startIndex_range c). lia.
           ++ assert (Hpr : progress c (destination c p d) = progress c p + d).
              { apply progress_step; [exact Hp' | | exact Hrange].
                intros Hlt. apply (Hroute c k p Hs). lia. }
              rewrite Hsame in Hpr. lia.
        -- apply isOccupiedByPlayer_free in Hfree. apply Hfree.
           exists k. split; [exact Hk|]. rewrite Hdest. exact Hs.
      * right. split; [exact Hp|]. simpl. rewrite Hp.
        unfold passTurn. rewrite finalizeMove_no_callback, checkWin_diceRoll.
        apply finalizeState_diceRoll.
    + destruct Ht as (_ & Hbtn & _). intros roll. simpl. rewrite Hbtn.
      unfold onRollDice. rewrite Hroll, Hd. simpl.
      destruct (currentColor_in_range (game b) Hidx) as [c Hc].
      assert (Hc' : currentColor (set_rollCount (rollCount (game b) + 1)
                                    (set_diceRoll (Some roll) (game b)))
                    = Some c) by exact Hc.
      rewrite Hc'. simpl. destruct (negb _); reflexivity.
  - destruct Hinv as (st0 & pos & dice & done & Hg0 & Hno0 & Hc & Hd & Hs & Hm & Hpath
                      & Hgame & Hcb).
    split; [reflexivity|].
    assert (Hslot : is_Some (tokens (game b) (timerColor t) !! timerIndex t)).
    { rewrite Hgame. apply inFlight_slot. unfold posOf in Hs. rewrite Hs. eauto. }
    destruct Hslot as [q Hq].
    assert (Hput : forall g, tokens g (timerColor t) !! timerIndex t = Some q ->
              posOf (set_pos (timerColor t) (timerIndex t) (timerStepPos t) g)
                (timerColor t) (timerIndex t) = Some (timerStepPos t)).
    { intros g Hg. unfold posOf. rewrite set_pos_tokens_same.
      apply list_lookup_insert_eq. apply lookup_lt_is_Some. eauto. }
    unfold browserStep. rewrite Hts. unfold stepTimeout. cbn [game stepTimers].
    rewrite Hq. destruct (timerSteps t) as [|s rest] eqn:Hsteps.
    + unfold animateCall. cbn [game stepTimers]. rewrite Hcb. simpl state_of.
      split.
      * unfold posOf. rewrite checkWinState_tokens, finalizeState_tokens.
        apply (Hput (game b) Hq).
      * split; [reflexivity|].
        destruct (checkWinState_turn (timerColor t)
                    (finalizeState dice
                       (set_pos (timerColor t) (timerIndex t) (timerStepPos t) (game b))))
          as (_ & -> & ->).
        split; [apply finalizeState_isRolling | apply finalizeState_diceRoll].
    + unfold animateCall. cbn [game stepTimers].
      pose proof (Hput (game b) Hq) as Hnew. unfold posOf in Hnew. rewrite Hnew.
      cbn [game stepTimers app timerStepPos timerSteps]. split; [exact Hnew | reflexivity].
Qed.

Lemma X10_play_never_stuck_witness :
  browserReachable
    (browserRun [Handler (ClickRoll 6); Handler (ClickToken red 0)]
       (mkBrowser initialState []))
  /\ posOf (game (browserStep StepTimeout
                    (browserRun [Handler (ClickRoll 6); Handler (ClickToken red 0)]
                       (mkBrowser initialState []))))
       red 0 = Some (Track 0)
  /\ diceRoll (game (browserStep StepTimeout
                       (browserRun [Handler (ClickRoll 6); Handler (ClickToken red 0)]
                          (mkBrowser initialState []))))
     = None.
Proof.
  split; [apply leavingBase_reachable|].
  pose proof (X10_play_never_stuck _ leavingBase_reachable) as H.
  vm_compute in H. destruct H as (_ & Hpos & _ & _ & Hroll).
  split; [exact Hpos | exact Hroll].
Defined.
